(** * Call signalling core of the chat gateway

    A shallow embedding of the presence registry ([ChatGateway.clients]),
    the per-call socket router and the call state machine ([CallService]),
    and the signalling relay ([WebRTCService]), with the properties the
    specification states about them.

    Conventions of the embedding:
    - a JavaScript [Map<string, V>] used by key only is a [gmap string V];
    - a JavaScript [Set<Socket>] is the list of its members in insertion
      order, without duplicates (iteration order is insertion order);
    - [string | undefined] and [string | null] are [option string];
      JavaScript truthiness of a string ([if (s)], [!s], [a && b]) is
      written out with [truthy];
    - [new Date()] is the [now] argument of the handler;
    - every handler is one step on [State], the handler run without
      interruption; the handlers that write the status of a call, and the
      timer callback, are also given cut in two at their last [await], so
      that an execution can let the other run in between. *)

From Stdlib Require Import ZArith Lia.
From stdpp Require Import gmap strings list fin_maps gmultiset.

Set Warnings "-clear-no-such-hyp".
Local Open Scope string_scope.
Local Open Scope list_scope.

(** ** Data model *)

Definition Time := Z.

Module CallStatus.
Inductive t := INITIATED | ONGOING | ENDED | MISSED.

#[global] Instance eq_dec : EqDecision t.
Proof. solve_decision. Defined.

(** ENDED and MISSED are the statuses the specification calls terminal. *)
Definition terminal (s : t) : bool :=
  match s with
  | ENDED | MISSED => true
  | INITIATED | ONGOING => false
  end.
End CallStatus.

Module CallParticipantStatus.
Inductive t := JOINED | MISSED.

#[global] Instance eq_dec : EqDecision t.
Proof. solve_decision. Defined.
End CallParticipantStatus.

Inductive CallType := AUDIO | VIDEO.

Inductive ConversationParticipantType := ADMIN_GROUP | USER.

#[global] Instance ConversationParticipantType_eq_dec :
  EqDecision ConversationParticipantType.
Proof. solve_decision. Defined.

(** The part of a socket.io [Socket] the handlers read: [client.id] and
    [client.data.userId].  Two sockets are the same member of a [Set] when
    they are the same record. *)
Record Socket := mkSocket {
  sock_id : string;
  data_userId : option string;
}.

#[global] Instance Socket_eq_dec : EqDecision Socket.
Proof. solve_decision. Defined.

#[global] Instance Socket_countable : Countable Socket.
Proof.
  apply (inj_countable' (fun s => (sock_id s, data_userId s))
                        (fun p => mkSocket p.1 p.2)).
  by intros [].
Defined.

(** A row of [privateCallParticipant].  The row identifier is the position
    of the row in [call_participants]. *)
Record CallParticipant := mkCallParticipant {
  cp_userId : option string;
  cp_status : CallParticipantStatus.t;
  cp_joinedAt : option Time;
  cp_leftAt : option Time;
}.

(** A row of [privateCall] together with its participants, as
    [include: { participants: true }] returns it. *)
Record Call := mkCall {
  call_id : string;
  call_conversationId : string;
  call_initiatorId : string;
  call_type : CallType;
  call_status : CallStatus.t;
  call_startedAt : option Time;
  call_endedAt : option Time;
  call_participants : list CallParticipant;
}.

Record ConversationParticipant := mkConversationParticipant {
  conv_userId : option string;
  conv_type : ConversationParticipantType;
}.

(** Modelled from the spec: the members of [EventsEnum] that the handlers
    emit ([events.enum.ts] is not part of the sources); the names are the
    ones the handlers use. *)
Inductive EventsEnum :=
  | ERROR | CALL_INCOMING | CALL_ACCEPT | CALL_MISSED | CALL_END
  | RTC_OFFER | RTC_ANSWER | RTC_ICE_CANDIDATE.

#[global] Instance EventsEnum_eq_dec : EqDecision EventsEnum.
Proof. solve_decision. Defined.

(** Payloads of the emitted events. *)
Inductive Payload :=
  | PError (message : string)
  | PIncoming (call : Call) (from : string)
  | PAccepted (callId userId : string)
  | PMissed (callId by_ : string)
  | PEnded (callId : string)
  | PSdp (callId sdp from : string)
  | PCandidate (callId candidate sdpMid : string) (sdpMLineIndex : Z)
               (from : string).

(** One [server.to(socketId).emit(event, payload)]. *)
Record Emit := mkEmit {
  emit_to : string;
  emit_event : EventsEnum;
  emit_payload : Payload;
}.

(** [TResponse]: [successResponse(_, message)] or [errorResponse(null, message)]. *)
Inductive TResponse :=
  | successResponse (message : string)
  | errorResponse (message : string).

(** The mutable state the handlers share: the two tables of the store, the
    presence registry of the gateway, and the two maps of [CallService]. *)
Record State := mkState {
  conversations : gmap string (list ConversationParticipant);
  calls : gmap string Call;
  clients : gmap string (list Socket);
  callSocketMap : gmap string (gmap string string);
  ringTimeouts : gmap string Z;
}.

Definition set_calls (f : gmap string Call -> gmap string Call) (st : State) : State :=
  mkState (conversations st) (f (calls st)) (clients st) (callSocketMap st)
          (ringTimeouts st).

Definition set_clients (f : gmap string (list Socket) -> gmap string (list Socket))
    (st : State) : State :=
  mkState (conversations st) (calls st) (f (clients st)) (callSocketMap st)
          (ringTimeouts st).

Definition set_callSocketMap
    (f : gmap string (gmap string string) -> gmap string (gmap string string))
    (st : State) : State :=
  mkState (conversations st) (calls st) (clients st) (f (callSocketMap st))
          (ringTimeouts st).

Definition set_ringTimeouts (f : gmap string Z -> gmap string Z) (st : State) : State :=
  mkState (conversations st) (calls st) (clients st) (callSocketMap st)
          (f (ringTimeouts st)).

(** What a handler leaves behind: its response, the new state, and the
    events it emitted, oldest first. *)
Definition Outcome : Type := TResponse * State * list Emit.

Definition response (o : Outcome) : TResponse := o.1.1.
Definition state_of (o : Outcome) : State := o.1.2.
Definition emitted (o : Outcome) : list Emit := o.2.

(** ** JavaScript truthiness of strings *)

Definition truthy (s : string) : bool := negb (String.eqb s EmptyString).

(** [x] when [x] is a non-empty string, as in [if (x)] on [string | undefined]. *)
Definition resolved (x : option string) : option string :=
  match x with
  | Some s => if truthy s then Some s else None
  | None => None
  end.

(** ** Presence registry ([ChatGateway]) *)

Section Registry.

Definition isOnline (userId : string) (st : State) : bool :=
  bool_decide (is_Some (clients st !! userId)).

(** [Set.prototype.add]: appends unless already a member. *)
Definition set_add (client : Socket) (set : list Socket) : list Socket :=
  if decide (client ∈ set) then set else (set ++ [client])%list.

(** [Set.prototype.delete]. *)
Definition set_delete (client : Socket) (set : list Socket) : list Socket :=
  filter (fun s => s ≠ client) set.

Definition subscribeClient (userId : string) (client : Socket) (st : State) : State :=
  let st1 :=
    match clients st !! userId with
    | None => set_clients (insert userId []) st
    | Some _ => st
    end in
  set_clients (alter (set_add client) userId) st1.

Definition unsubscribeClient (userId : string) (client : Socket) (st : State) : State :=
  match clients st !! userId with
  | None => st
  | Some set =>
      let set' := set_delete client set in
      let st1 := set_clients (insert userId set') st in
      if Nat.eqb (length set') 0
      then set_clients (delete userId) st1
      else st1
  end.

(** [excludeSocketId] undefined never equals a socket id. *)
Definition getActiveSocketIdsForUser (userId : string)
    (excludeSocketId : option string) (st : State) : list string :=
  match clients st !! userId with
  | None => []
  | Some set =>
      sock_id <$> filter (fun sock => Some (sock_id sock) ≠ excludeSocketId) set
  end.

Definition emitError (client : Socket) (message : string) (st : State) : Outcome :=
  (errorResponse message, st, [mkEmit (sock_id client) ERROR (PError message)]).

End Registry.

(** ** Call socket router ([CallService]) *)

Section Router.

(** [ensureCallSocketEntry(callId).set(userId, socketId)]. *)
Definition recordRoute (callId userId socketId : string) (st : State) : State :=
  let st1 :=
    match callSocketMap st !! callId with
    | None => set_callSocketMap (insert callId ∅) st
    | Some _ => st
    end in
  set_callSocketMap (alter (insert userId socketId) callId) st1.

Definition findTargetSocketForRecipient (callId recipientUserId : string)
    (payloadTo excludeSocketId : option string) (st : State) : option string :=
  let hinted :=
    match resolved payloadTo with
    | Some to =>
        let active := getActiveSocketIdsForUser recipientUserId excludeSocketId st in
        if decide (to ∈ active) then Some to else None
    | None => None
    end in
  match hinted with
  | Some to => Some to
  | None =>
      let recorded :=
        match callSocketMap st !! callId with
        | Some map =>
            match resolved (map !! recipientUserId) with
            | Some rec => if decide (Some rec ≠ excludeSocketId) then Some rec else None
            | None => None
            end
        | None => None
        end in
      match recorded with
      | Some rec => Some rec
      | None =>
          head (getActiveSocketIdsForUser recipientUserId excludeSocketId st)
      end
  end.

Definition clearRingTimeout (callId : string) (st : State) : State :=
  match ringTimeouts st !! callId with
  | Some _ => set_ringTimeouts (delete callId) st
  | None => st
  end.

End Router.

(** ** Call state machine ([CallService]) *)

Section CallStateMachine.

Definition setRingTimeout (callId : string) (ms : Z) (st : State) : State :=
  set_ringTimeouts (insert callId ms) (clearRingTimeout callId st).

(** [data: { status, startedAt }], [data: { status, endedAt }] on a call row. *)
Definition call_started (now : Time) (c : Call) : Call :=
  mkCall (call_id c) (call_conversationId c) (call_initiatorId c) (call_type c)
         CallStatus.ONGOING (Some now) (call_endedAt c) (call_participants c).

Definition call_finished (s : CallStatus.t) (now : Time) (c : Call) : Call :=
  mkCall (call_id c) (call_conversationId c) (call_initiatorId c) (call_type c)
         s (call_startedAt c) (Some now) (call_participants c).

Definition call_with_participants
    (f : list CallParticipant -> list CallParticipant) (c : Call) : Call :=
  mkCall (call_id c) (call_conversationId c) (call_initiatorId c) (call_type c)
         (call_status c) (call_startedAt c) (call_endedAt c)
         (f (call_participants c)).

(** [data: { status: JOINED, joinedAt }] and [data: { status: MISSED, leftAt }]
    on a participant row. *)
Definition participant_joined (now : Time) (p : CallParticipant) : CallParticipant :=
  mkCallParticipant (cp_userId p) CallParticipantStatus.JOINED (Some now) (cp_leftAt p).

Definition participant_missed (now : Time) (p : CallParticipant) : CallParticipant :=
  mkCallParticipant (cp_userId p) CallParticipantStatus.MISSED (cp_joinedAt p) (Some now).

(** [participants.find((p) => p.userId !== userId)]. *)
Definition other_participant (userId : string) (ps : list CallParticipant)
    : option CallParticipant :=
  List.find (fun p => bool_decide (cp_userId p ≠ Some userId)) ps.

(** The notification both [acceptCall] and [rejectCall] send to the other
    participant of the call read before the update. *)
Definition notify_other (call : Call) (userId : string) (event : EventsEnum)
    (payload : Payload) (st : State) : list Emit :=
  match other_participant userId (call_participants call) with
  | Some initiator =>
      match resolved (cp_userId initiator) with
      | Some initiatorId =>
          match resolved (findTargetSocketForRecipient (call_id call) initiatorId
                            None None st) with
          | Some targetSock => [mkEmit targetSock event payload]
          | None => []
          end
      | None => []
      end
  | None => []
  end.

(** Modelled from the spec: the [HandleError] decorator is not part of the
    sources; a store operation that throws is caught at the boundary of
    the handler, the statements after the throwing one do not run, and the
    failure becomes a generic failure response to the sender, delivered as
    an explicit error event to the originating connection.  The store
    operations that throw in this model are the two that violate a key: a
    create under an identifier that is taken, and an update of a row that
    does not exist.  A failure of the store itself is outside the model. *)
Definition handleError (client : Socket) (message : string) (st : State) : Outcome :=
  (errorResponse message, st, [mkEmit (sock_id client) ERROR (PError message)]).

(** [newId] is the identifier the store generates for the created row;
    creating a row whose identifier is taken violates the primary key and
    throws. *)
Definition initiateCall (newId : string) (client : Socket)
    (conversationId : string) (type : CallType) (st : State) : Outcome :=
  match resolved (data_userId client) with
  | None => emitError client "Unauthorized" st
  | Some callerId =>
    match conversations st !! conversationId with
    | None => emitError client "Conversation not found" st
    | Some participants =>
      match List.find (fun p => bool_decide (conv_userId p = Some callerId)
                                && bool_decide (conv_type p = ADMIN_GROUP))
                      participants with
      | None => emitError client "Only admins may initiate calls" st
      | Some _ =>
        match List.find (fun p => bool_decide (conv_type p = USER)
                                  && bool_decide (is_Some (resolved (conv_userId p))))
                        participants
              ≫= (fun userParticipant => conv_userId userParticipant) with
        | None => emitError client "No user in conversation to call" st
        | Some targetId =>
          match calls st !! newId with
          | Some _ => handleError client "Failed to initiate call" st
          | None =>
            let call :=
              mkCall newId conversationId callerId type CallStatus.INITIATED None None
                [ mkCallParticipant (Some callerId) CallParticipantStatus.JOINED None None;
                  mkCallParticipant (Some targetId) CallParticipantStatus.MISSED None None ] in
            let st1 := set_calls (insert newId call) st in
            let st2 :=
              set_callSocketMap (insert (call_id call) {[ callerId := sock_id client ]}) st1 in
            let out :=
              match resolved (findTargetSocketForRecipient (call_id call) targetId
                                None None st2) with
              | Some targetSocket =>
                  [mkEmit targetSocket CALL_INCOMING (PIncoming call callerId)]
              | None => []
              end in
            let st3 := setRingTimeout (call_id call) 30000 st2 in
            (successResponse "Call initiated", st3, out)
          end
        end
      end
    end
  end.

Definition acceptCall (now : Time) (client : Socket) (callId : string)
    (st : State) : Outcome :=
  match resolved (data_userId client) with
  | None => emitError client "Unauthorized" st
  | Some userId =>
    match calls st !! callId with
    | None => emitError client "Call not found" st
    | Some call =>
      let upsert (ps : list CallParticipant) :=
        match list_find (fun p => cp_userId p = Some userId) (call_participants call) with
        | Some (existing, _) => alter (participant_joined now) existing ps
        | None =>
            (ps ++ [mkCallParticipant (Some userId) CallParticipantStatus.JOINED
                                      (Some now) None])%list
        end in
      let st1 := set_calls (alter (call_with_participants upsert) callId) st in
      let st2 :=
        if decide (call_status call = CallStatus.INITIATED)
        then set_calls (alter (call_started now) callId) st1
        else st1 in
      let st3 := recordRoute callId userId (sock_id client) st2 in
      let st4 := clearRingTimeout callId st3 in
      (successResponse "Call accepted", st4,
       notify_other call userId CALL_ACCEPT (PAccepted callId userId) st4)
    end
  end.

Definition rejectCall (now : Time) (client : Socket) (callId : string)
    (st : State) : Outcome :=
  match resolved (data_userId client) with
  | None => emitError client "Unauthorized" st
  | Some userId =>
    match calls st !! callId with
    | None => emitError client "Call not found" st
    | Some call =>
      let updateMany (ps : list CallParticipant) :=
        (fun p => if decide (cp_userId p = Some userId)
                  then participant_missed now p else p) <$> ps in
      let st1 := set_calls (alter (call_with_participants updateMany) callId) st in
      let st2 := set_calls (alter (call_finished CallStatus.MISSED now) callId) st1 in
      let st3 := clearRingTimeout callId st2 in
      let st4 := set_callSocketMap (delete callId) st3 in
      (successResponse "Call rejected", st4,
       notify_other call userId CALL_MISSED (PMissed callId userId) st4)
    end
  end.

(** [endCall] reads [client.data.userId] for its log line only; the client
    matters to the outcome only when the update throws. *)
Definition endCall (now : Time) (client : Socket) (callId : string)
    (st : State) : Outcome :=
  match calls st !! callId with
  | None => handleError client "Failed to end call" st
  | Some old =>
      let call := call_finished CallStatus.ENDED now old in
      let st1 := set_calls (insert callId call) st in
      let st2 := clearRingTimeout callId st1 in
      let out :=
        omap (fun p =>
                resolved (cp_userId p) ≫= fun userId =>
                resolved (findTargetSocketForRecipient (call_id call) userId
                            None None st2) ≫= fun sock =>
                Some (mkEmit sock CALL_END (PEnded callId)))
             (call_participants call) in
      let st3 := set_callSocketMap (delete callId) st2 in
      (successResponse "Call ended", st3, out)
  end.

(** The callback [setRingTimeout] schedules.  It runs only while its timer
    is still registered: [None] when no timer is pending for [callId]. *)
Definition ringTimeout (now : Time) (callId : string) (st : State) : option State :=
  match ringTimeouts st !! callId with
  | None => None
  | Some _ =>
      let st1 :=
        match calls st !! callId with
        | Some _ =>
            set_callSocketMap (delete callId)
              (set_calls (alter (call_finished CallStatus.MISSED now) callId) st)
        | None => st
        end in
      Some (clearRingTimeout callId st1)
  end.

End CallStateMachine.

(** ** Signalling relay ([WebRTCService]) *)

Section Relay.

Record RTCOfferDto := mkRTCOfferDto {
  offer_callId : string;
  offer_sdp : string;
  offer_to : option string;
}.

Record RTCAnswerDto := mkRTCAnswerDto {
  answer_callId : string;
  answer_sdp : string;
  answer_to : option string;
}.

Record RTCIceCandidateDto := mkRTCIceCandidateDto {
  ice_callId : string;
  ice_candidate : string;
  ice_sdpMid : string;
  ice_sdpMLineIndex : Z;
  ice_to : option string;
}.

(** The body the three forwarding handlers share; they differ in the event
    tag, the payload built from [call.id] and [from], and the message of
    the success response. *)
Definition forward (event : EventsEnum) (payload : string -> string -> Payload)
    (message : string) (client : Socket) (callId : string) (to : option string)
    (st : State) : Outcome :=
  match resolved (data_userId client) with
  | None => emitError client "Unauthorized" st
  | Some from =>
    match calls st !! callId with
    | None => emitError client "Call not found" st
    | Some call =>
      match other_participant from (call_participants call)
            ≫= (fun other => resolved (cp_userId other)) with
      | None => emitError client "Recipient not found" st
      | Some otherId =>
        match resolved (findTargetSocketForRecipient (call_id call) otherId to
                          (Some (sock_id client)) st) with
        | None => emitError client "Recipient not available" st
        | Some target =>
            (successResponse message,
             recordRoute (call_id call) from (sock_id client) st,
             [mkEmit target event (payload (call_id call) from)])
        end
      end
    end
  end.

Definition forwardOffer (client : Socket) (payload : RTCOfferDto) : State -> Outcome :=
  forward RTC_OFFER (fun callId from => PSdp callId (offer_sdp payload) from)
          "Offer forwarded" client (offer_callId payload) (offer_to payload).

Definition forwardAnswer (client : Socket) (payload : RTCAnswerDto) : State -> Outcome :=
  forward RTC_ANSWER (fun callId from => PSdp callId (answer_sdp payload) from)
          "Answer forwarded" client (answer_callId payload) (answer_to payload).

Definition forwardCandidate (client : Socket) (payload : RTCIceCandidateDto)
    : State -> Outcome :=
  forward RTC_ICE_CANDIDATE
          (fun callId from =>
             PCandidate callId (ice_candidate payload) (ice_sdpMid payload)
                        (ice_sdpMLineIndex payload) from)
          "Candidate forwarded" client (ice_callId payload) (ice_to payload).

End Relay.

(** ** Executions *)

(** The events the gateway dispatches.  [Connect] is [handleConnection] after
    authentication has stored the user identity in [client.data.userId];
    [RingTimeout] is the timer callback and leaves the state alone when no
    timer is pending. *)
Inductive Op :=
  | Connect (client : Socket)
  | Disconnect (client : Socket)
  | Initiate (newId : string) (client : Socket) (conversationId : string)
             (type : CallType)
  | Accept (now : Time) (client : Socket) (callId : string)
  | Reject (now : Time) (client : Socket) (callId : string)
  | End_ (now : Time) (client : Socket) (callId : string)
  | RingTimeout (now : Time) (callId : string)
  | Offer (client : Socket) (payload : RTCOfferDto)
  | Answer (client : Socket) (payload : RTCAnswerDto)
  | Candidate (client : Socket) (payload : RTCIceCandidateDto).

Definition handleConnection (client : Socket) (st : State) : State :=
  match data_userId client with
  | Some userId => subscribeClient userId client st
  | None => st
  end.

Definition handleDisconnect (client : Socket) (st : State) : State :=
  match resolved (data_userId client) with
  | Some userId => unsubscribeClient userId client st
  | None => st
  end.

Definition step (op : Op) (st : State) : State :=
  match op with
  | Connect client => handleConnection client st
  | Disconnect client => handleDisconnect client st
  | Initiate newId client conversationId type =>
      state_of (initiateCall newId client conversationId type st)
  | Accept now client callId => state_of (acceptCall now client callId st)
  | Reject now client callId => state_of (rejectCall now client callId st)
  | End_ now client callId => state_of (endCall now client callId st)
  | RingTimeout now callId => default st (ringTimeout now callId st)
  | Offer client payload => state_of (forwardOffer client payload st)
  | Answer client payload => state_of (forwardAnswer client payload st)
  | Candidate client payload => state_of (forwardCandidate client payload st)
  end.

Definition run (ops : list Op) (st : State) : State := foldl (flip step) st ops.

(** A process starts with the store it is given and empty in-memory maps. *)
Definition initial (convs : gmap string (list ConversationParticipant))
    (stored : gmap string Call) : State :=
  mkState convs stored ∅ ∅ ∅.

Definition reachable (st : State) : Prop :=
  ∃ convs ops, st = run ops (initial convs ∅).


(** ** More of the gateway *)

Section GatewayHelpers.

(** [emitToUserFirstSocket]: whether an event went out, and the event. *)
Definition emitToUserFirstSocket (userId : string) (event : EventsEnum)
    (payload : Payload) (excludeSocketId : option string) (st : State)
    : bool * list Emit :=
  match getActiveSocketIdsForUser userId excludeSocketId st with
  | [] => (false, [])
  | first :: _ => (true, [mkEmit first event payload])
  end.

(** The fields of [client.handshake] that carry the credentials. *)
Record Handshake := mkHandshake {
  headers_authorization : option string;
  auth_token : option string;
}.

(** The space character. *)
Definition space : Ascii.ascii := Ascii.Ascii false false false false false true false false.

(** [String.prototype.split] with a separator of one character. *)
Fixpoint split (separator : Ascii.ascii) (s : string) : list string :=
  match s with
  | EmptyString => [EmptyString]
  | String c rest =>
      if Ascii.eqb c separator then EmptyString :: split separator rest
      else match split separator rest with
           | word :: words => String c word :: words
           | [] => [String c EmptyString]
           end
  end.

(** [a || b] on [string | undefined]. *)
Definition or_else (a b : option string) : option string :=
  match resolved a with
  | Some s => Some s
  | None => b
  end.

Definition extractTokenFromSocket (handshake : Handshake) : option string :=
  match resolved (or_else (headers_authorization handshake) (auth_token handshake)) with
  | None => None
  | Some authHeader =>
      if String.prefix "Bearer " authHeader
      then split space authHeader !! 1%nat
      else Some authHeader
  end.

End GatewayHelpers.

(** The gateway that shares a file with [ConversationService] writes
    [subscribeClient] differently: [get(userId) ?? new Set()], [add], [set]. *)
Module ConversationGateway.

Definition subscribeClient (userId : string) (client : Socket) (st : State) : State :=
  let set := default [] (clients st !! userId) in
  let set' := set_add client set in
  set_clients (insert userId set') st.

End ConversationGateway.

(** The outcome of the handler an operation dispatches to; the connection
    events and the timer callback return nothing. *)
Definition handle (op : Op) (st : State) : option Outcome :=
  match op with
  | Connect _ | Disconnect _ | RingTimeout _ _ => None
  | Initiate newId client conversationId type =>
      Some (initiateCall newId client conversationId type st)
  | Accept now client callId => Some (acceptCall now client callId st)
  | Reject now client callId => Some (rejectCall now client callId st)
  | End_ now client callId => Some (endCall now client callId st)
  | Offer client payload => Some (forwardOffer client payload st)
  | Answer client payload => Some (forwardAnswer client payload st)
  | Candidate client payload => Some (forwardCandidate client payload st)
  end.

(** ** The handlers at their last await *)

(** [acceptCall], [rejectCall] and [endCall] await the update of the call
    row and only then cancel the ring timer; the timer callback awaits its
    own update and only then drops the route and the timer.  Each is given
    here as the part up to and including the awaited write, and the part
    that runs when the handler resumes. *)

Section Awaits.

(** [acceptCall] through the update of the call row: the answer if the
    handler returned before it, or else the acting user and the call that
    was read, with the state the writes leave. *)
Definition acceptCall_until_update (now : Time) (client : Socket) (callId : string)
    (st : State) : Outcome + (string * Call * State) :=
  match resolved (data_userId client) with
  | None => inl (emitError client "Unauthorized" st)
  | Some userId =>
    match calls st !! callId with
    | None => inl (emitError client "Call not found" st)
    | Some call =>
      let upsert (ps : list CallParticipant) :=
        match list_find (fun p => cp_userId p = Some userId) (call_participants call) with
        | Some (existing, _) => alter (participant_joined now) existing ps
        | None =>
            (ps ++ [mkCallParticipant (Some userId) CallParticipantStatus.JOINED
                                      (Some now) None])%list
        end in
      let st1 := set_calls (alter (call_with_participants upsert) callId) st in
      let st2 :=
        if decide (call_status call = CallStatus.INITIATED)
        then set_calls (alter (call_started now) callId) st1
        else st1 in
      inr (userId, call, st2)
    end
  end.

(** [acceptCall] from there: record the route, cancel the timer, notify. *)
Definition acceptCall_after_update (client : Socket) (callId userId : string)
    (call : Call) (st : State) : Outcome :=
  let st3 := recordRoute callId userId (sock_id client) st in
  let st4 := clearRingTimeout callId st3 in
  (successResponse "Call accepted", st4,
   notify_other call userId CALL_ACCEPT (PAccepted callId userId) st4).

Definition rejectCall_until_update (now : Time) (client : Socket) (callId : string)
    (st : State) : Outcome + (string * Call * State) :=
  match resolved (data_userId client) with
  | None => inl (emitError client "Unauthorized" st)
  | Some userId =>
    match calls st !! callId with
    | None => inl (emitError client "Call not found" st)
    | Some call =>
      let updateMany (ps : list CallParticipant) :=
        (fun p => if decide (cp_userId p = Some userId)
                  then participant_missed now p else p) <$> ps in
      let st1 := set_calls (alter (call_with_participants updateMany) callId) st in
      let st2 := set_calls (alter (call_finished CallStatus.MISSED now) callId) st1 in
      inr (userId, call, st2)
    end
  end.

Definition rejectCall_after_update (client : Socket) (callId userId : string)
    (call : Call) (st : State) : Outcome :=
  let st3 := clearRingTimeout callId st in
  let st4 := set_callSocketMap (delete callId) st3 in
  (successResponse "Call rejected", st4,
   notify_other call userId CALL_MISSED (PMissed callId userId) st4).

(** [endCall] through its update: the updated call the store returns. *)
Definition endCall_until_update (now : Time) (client : Socket) (callId : string)
    (st : State) : Outcome + (Call * State) :=
  match calls st !! callId with
  | None => inl (handleError client "Failed to end call" st)
  | Some old =>
      let call := call_finished CallStatus.ENDED now old in
      inr (call, set_calls (insert callId call) st)
  end.

Definition endCall_after_update (callId : string) (call : Call) (st : State)
    : Outcome :=
  let st2 := clearRingTimeout callId st in
  let out :=
    omap (fun p =>
            resolved (cp_userId p) ≫= fun userId =>
            resolved (findTargetSocketForRecipient (call_id call) userId
                        None None st2) ≫= fun sock =>
            Some (mkEmit sock CALL_END (PEnded callId)))
         (call_participants call) in
  let st3 := set_callSocketMap (delete callId) st2 in
  (successResponse "Call ended", st3, out).

(** The timer callback through its update: [None] when no timer is
    registered for the call, or else whether the update went through (it
    throws when the call row does not exist) and the state it leaves. *)
Definition ringTimeout_until_update (now : Time) (callId : string) (st : State)
    : option (bool * State) :=
  match ringTimeouts st !! callId with
  | None => None
  | Some _ =>
      match calls st !! callId with
      | Some _ =>
          Some (true, set_calls (alter (call_finished CallStatus.MISSED now) callId) st)
      | None => Some (false, st)
      end
  end.

(** The timer callback from there: the rest of the [try] block when the
    update went through, and the [finally] block. *)
Definition ringTimeout_after_update (callId : string) (updated : bool) (st : State)
    : State :=
  let st1 := if updated then set_callSocketMap (delete callId) st else st in
  clearRingTimeout callId st1.

End Awaits.
(** ** Statements about the router *)

(** The active connections of a recipient in the words of the
    specification: the connections the Presence Registry holds for the
    recipient, in the order of the registry, the excluded one left out.
    Read off the registry, not through the gateway's helper. *)
Definition activeConnections_spec (recipient : string) (exclude : option string)
    (st : State) : list string :=
  filter (fun id => Some id ≠ exclude)
         (sock_id <$> default [] (clients st !! recipient)).

(** The resolution order in the words of the specification: the hint if it
    is among the active connections of the recipient, else the recorded
    route if it differs from the excluded connection, else the first
    active connection, else not found. *)
Definition resolveTarget_spec (callId recipient : string)
    (hint exclude : option string) (st : State) : option string :=
  let active := activeConnections_spec recipient exclude st in
  let recorded := callSocketMap st !! callId ≫= (fun map => map !! recipient) in
  match hint with
  | Some h =>
      if decide (h ∈ active) then Some h
      else match recorded with
           | Some r => if decide (Some r ≠ exclude) then Some r else head active
           | None => head active
           end
  | None =>
      match recorded with
      | Some r => if decide (Some r ≠ exclude) then Some r else head active
      | None => head active
      end
  end.

(** Connection identifiers are assigned by the transport and are never the
    empty string; a snapshot is well formed when that holds of every
    registered socket and every recorded route. *)
Definition sockets_named (registry : gmap string (list Socket)) : Prop :=
  map_Forall (fun _ set => Forall (fun sock => sock_id sock ≠ EmptyString) set)
             registry.

Definition routes_named (routes : gmap string (gmap string string)) : Prop :=
  map_Forall (fun _ map => map_Forall (fun _ socketId => socketId ≠ EmptyString)
                                      (map : gmap string string))
             routes.

Definition ids_nonempty (st : State) : Prop :=
  sockets_named (clients st) ∧ routes_named (callSocketMap st).

(** The connection an operation arrives on, if it arrives on one. *)
Definition op_client (op : Op) : option Socket :=
  match op with
  | Connect client | Disconnect client | Initiate _ client _ _
  | Accept _ client _ | Reject _ client _ | End_ _ client _
  | Offer client _ | Answer client _ | Candidate client _ => Some client
  | RingTimeout _ _ => None
  end.

(** The operation arrives on a connection with a non-empty identifier. *)
Definition op_named (op : Op) : Prop :=
  match op_client op with
  | Some client => sock_id client ≠ EmptyString
  | None => True
  end.

(** ** Statements about the state machine *)

(** The operations that settle a ringing call. *)
Definition settles (op : Op) (callId : string) : Prop :=
  match op with
  | Accept _ _ c | Reject _ _ c | End_ _ _ c => c = callId
  | _ => False
  end.

(** The operations that bring a call to a terminal status. *)
Definition terminates (op : Op) (callId : string) : Prop :=
  match op with
  | Reject _ _ c | End_ _ _ c | RingTimeout _ c => c = callId
  | _ => False
  end.

(** The response of the handler an operation dispatches to; the connection
    events and the timer callback have none. *)
Definition respond (op : Op) (st : State) : option TResponse :=
  match op with
  | Connect _ | Disconnect _ | RingTimeout _ _ => None
  | Initiate newId client conversationId type =>
      Some (response (initiateCall newId client conversationId type st))
  | Accept now client callId => Some (response (acceptCall now client callId st))
  | Reject now client callId => Some (response (rejectCall now client callId st))
  | End_ now client callId => Some (response (endCall now client callId st))
  | Offer client payload => Some (response (forwardOffer client payload st))
  | Answer client payload => Some (response (forwardAnswer client payload st))
  | Candidate client payload => Some (response (forwardCandidate client payload st))
  end.

Definition succeeded (r : option TResponse) : bool :=
  match r with
  | Some (successResponse _) => true
  | _ => false
  end.

(** An operation takes effect on the call when its handler answers with a
    success response, or, for the timer callback, when the timer is pending
    and the call row exists. *)
Definition takes_effect (op : Op) (st : State) : bool :=
  match op with
  | RingTimeout _ callId =>
      bool_decide (is_Some (ringTimeouts st !! callId))
      && bool_decide (is_Some (calls st !! callId))
  | _ => succeeded (respond op st)
  end.


(** The call row an authorised accept leaves behind. *)
Definition accepted (now : Time) (userId : string) (call : Call) : Call :=
  let upsert (ps : list CallParticipant) :=
    match list_find (fun p => cp_userId p = Some userId) (call_participants call) with
    | Some (existing, _) => alter (participant_joined now) existing ps
    | None =>
        (ps ++ [mkCallParticipant (Some userId) CallParticipantStatus.JOINED
                                  (Some now) None])%list
    end in
  let joined := call_with_participants upsert call in
  if decide (call_status call = CallStatus.INITIATED)
  then call_started now joined else joined.


(** How one operation changes the status of an existing call: not at all,
    or by the transition the operation stands for. *)
Inductive status_step (op : Op) (callId : string) (call call' : Call) : Prop :=
  | status_kept :
      call_status call' = call_status call →
      call_startedAt call' = call_startedAt call →
      status_step op callId call call'
  | status_accepted now client :
      op = Accept now client callId →
      call_status call = CallStatus.INITIATED →
      call_status call' = CallStatus.ONGOING →
      status_step op callId call call'
  | status_rejected now client :
      op = Reject now client callId →
      call_status call' = CallStatus.MISSED →
      status_step op callId call call'
  | status_ended now client :
      op = End_ now client callId →
      call_status call' = CallStatus.ENDED →
      status_step op callId call call'
  | status_timed_out now :
      op = RingTimeout now callId →
      call_status call' = CallStatus.MISSED →
      status_step op callId call call'.

(** A call is settled once its row exists and no ring timer is pending
    for it. *)
Definition settled (callId : string) (st : State) : Prop :=
  is_Some (calls st !! callId) ∧ ringTimeouts st !! callId = None.

(** ** Statements about the relay *)

(** The connection, call identifier and hint of a relay request, with the
    outcome of the handler it is dispatched to. *)
Definition relay (op : Op) (st : State)
    : option (Socket * string * option string * Outcome) :=
  match op with
  | Offer client payload =>
      Some (client, offer_callId payload, offer_to payload,
            forwardOffer client payload st)
  | Answer client payload =>
      Some (client, answer_callId payload, answer_to payload,
            forwardAnswer client payload st)
  | Candidate client payload =>
      Some (client, ice_callId payload, ice_to payload,
            forwardCandidate client payload st)
  | _ => None
  end.

(** ** Statements about the presence registry *)

Inductive PresenceEvent :=
  | Subscribe (userId : string) (client : Socket)
  | Unsubscribe (userId : string) (client : Socket).

Definition presence_step (ev : PresenceEvent) (st : State) : State :=
  match ev with
  | Subscribe userId client => subscribeClient userId client st
  | Unsubscribe userId client => unsubscribeClient userId client st
  end.

Definition presence_run (evs : list PresenceEvent) (st : State) : State :=
  foldl (flip presence_step) st evs.

(** The multiset of subscribes minus unsubscribes of a user, in the words
    of the specification: every subscribe adds one occurrence of the
    connection, every unsubscribe removes one. *)
Definition live_multiset (userId : string) (evs : list PresenceEvent)
    : gmultiset Socket :=
  foldl (fun M ev =>
           match ev with
           | Subscribe u client => if decide (u = userId) then M ⊎ {[+ client +]} else M
           | Unsubscribe u client => if decide (u = userId) then M ∖ {[+ client +]} else M
           end) ∅ evs.

(** The connections of a user that are live after a sequence of events:
    subscribed, and not unsubscribed since. *)
Definition live_connections (userId : string) (evs : list PresenceEvent)
    : gset Socket :=
  foldl (fun S ev =>
           match ev with
           | Subscribe u client => if decide (u = userId) then {[ client ]} ∪ S else S
           | Unsubscribe u client => if decide (u = userId) then S ∖ {[ client ]} else S
           end) ∅ evs.

(** The registry holds, for every user, exactly the live connections, and
    holds no entry for a user without one. *)
Definition registry_tracks (st : State) (evs : list PresenceEvent) : Prop :=
  ∀ u, match clients st !! u with
       | Some set => set ≠ [] ∧ list_to_set set = live_connections u evs
       | None => live_connections u evs = ∅
       end.


(** No connection of the user is subscribed again while it is live. *)
Definition no_resubscribe (userId : string) (evs : list PresenceEvent) : Prop :=
  ∀ pre client post,
    evs = (pre ++ Subscribe userId client :: post)%list →
    client ∉ live_connections userId pre.

(** ** Further statements *)

(** Every entry of the registry is non-empty, lists no socket twice, and
    holds only sockets authenticated as the user of the entry. *)
Definition registry_sound (st : State) : Prop :=
  map_Forall (fun userId set =>
                set ≠ [] ∧ NoDup set
                ∧ Forall (fun sock => data_userId sock = Some userId) set)
             (clients st).

(** The route recorded for a participant of a call, if any. *)
Definition recordedRoute (callId userId : string) (st : State) : option string :=
  callSocketMap st !! callId ≫= (fun map => map !! userId).

(** The part of a string before its first space. *)
Fixpoint before_space (s : string) : string :=
  match s with
  | EmptyString => EmptyString
  | String c rest =>
      if Ascii.eqb c space then EmptyString else String c (before_space rest)
  end.

(** No space occurs in the string. *)
Fixpoint spaceless (s : string) : bool :=
  match s with
  | EmptyString => true
  | String c rest => negb (Ascii.eqb c space) && spaceless rest
  end.

(** The call row [initiateCall] creates. *)
Definition created_call (newId conversationId callerId targetId : string)
    (type : CallType) : Call :=
  mkCall newId conversationId callerId type CallStatus.INITIATED None None
    [ mkCallParticipant (Some callerId) CallParticipantStatus.JOINED None None;
      mkCallParticipant (Some targetId) CallParticipantStatus.MISSED None None ].

(** The call row an authorised reject leaves behind. *)
Definition rejected (now : Time) (userId : string) (call : Call) : Call :=
  call_finished CallStatus.MISSED now
    (call_with_participants
       (fmap (fun p => if decide (cp_userId p = Some userId)
                       then participant_missed now p else p))
       call).

(** The attributes of a call row that are fixed when it is created. *)
Definition same_call (c c' : Call) : Prop :=
  call_id c' = call_id c
  ∧ call_conversationId c' = call_conversationId c
  ∧ call_initiatorId c' = call_initiatorId c
  ∧ call_type c' = call_type c.

(** Calls are stored under their identifier, a pending ring timer belongs
    to a call that is still INITIATED, and a call socket map entry belongs
    to a stored call. *)
Definition machine_sound (st : State) : Prop :=
  (∀ k c, calls st !! k = Some c → call_id c = k)
  ∧ (∀ k, is_Some (ringTimeouts st !! k) →
          ∃ c, calls st !! k = Some c ∧ call_status c = CallStatus.INITIATED)
  ∧ (∀ k, is_Some (callSocketMap st !! k) → is_Some (calls st !! k)).

(** The event tag of a relay request. *)
Definition relay_event (op : Op) : option EventsEnum :=
  match op with
  | Offer _ _ => Some RTC_OFFER
  | Answer _ _ => Some RTC_ANSWER
  | Candidate _ _ => Some RTC_ICE_CANDIDATE
  | _ => None
  end.

(** The shapes a step of the machine can take on the call table, the ring
    timers and the call socket map. *)
Inductive machine_step (op : Op) (st st' : State) : Prop :=
  | machine_idle :
      calls st' = calls st →
      ringTimeouts st' = ringTimeouts st →
      callSocketMap st' = callSocketMap st →
      machine_step op st st'
  | machine_relay callId call from socketId :
      calls st !! callId = Some call →
      calls st' = calls st →
      ringTimeouts st' = ringTimeouts st →
      callSocketMap st'
      = <[call_id call := <[from := socketId]>
                            (default ∅ (callSocketMap st !! call_id call))]>
          (callSocketMap st) →
      machine_step op st st'
  | machine_create newId client conversationId callerId targetId type :
      op = Initiate newId client conversationId type →
      callerId ≠ EmptyString →
      targetId ≠ EmptyString →
      calls st !! newId = None →
      calls st'
      = <[newId := created_call newId conversationId callerId targetId type]>
          (calls st) →
      ringTimeouts st' = <[newId := 30000%Z]> (ringTimeouts st) →
      callSocketMap st'
      = <[newId := {[ callerId := sock_id client ]}]> (callSocketMap st) →
      machine_step op st st'
  | machine_accept now client callId call userId :
      op = Accept now client callId →
      calls st !! callId = Some call →
      calls st' = <[callId := accepted now userId call]> (calls st) →
      ringTimeouts st' = delete callId (ringTimeouts st) →
      callSocketMap st'
      = <[callId := <[userId := sock_id client]>
                      (default ∅ (callSocketMap st !! callId))]> (callSocketMap st) →
      machine_step op st st'
  | machine_close callId call call' :
      calls st !! callId = Some call →
      (∃ now userId, call' = rejected now userId call)
      ∨ (∃ now, call' = call_finished CallStatus.ENDED now call)
      ∨ (∃ now, call' = call_finished CallStatus.MISSED now call
                ∧ is_Some (ringTimeouts st !! callId)) →
      calls st' = <[callId := call']> (calls st) →
      ringTimeouts st' = delete callId (ringTimeouts st) →
      callSocketMap st' = delete callId (callSocketMap st) →
      machine_step op st st'
  | machine_stale_timer callId :
      calls st !! callId = None →
      calls st' = calls st →
      ringTimeouts st' = delete callId (ringTimeouts st) →
      callSocketMap st' = callSocketMap st →
      machine_step op st st'.

(** The first two participant rows of a call are those of its initiator
    and of the callee. *)
Definition two_party (c : Call) : Prop :=
  call_initiatorId c ≠ EmptyString
  ∧ ∃ targetId rest,
      targetId ≠ EmptyString
      ∧ cp_userId <$> call_participants c
        = Some (call_initiatorId c) :: Some targetId :: rest.

(** The messages a handler refuses a request with: every message that
    [initiateCall], [acceptCall], [rejectCall] and the three relay handlers
    pass to [emitError]. *)
Definition refusals : list string :=
  [ "Unauthorized"; "Conversation not found"; "Only admins may initiate calls";
    "No user in conversation to call"; "Call not found"; "Recipient not found";
    "Recipient not available" ].

(** The callee of a conversation: its first USER participant that has a
    user. *)
Definition callee_of (participants : list ConversationParticipant)
    (targetId : string) : Prop :=
  ∃ before after,
    participants = before ++ mkConversationParticipant (Some targetId) USER :: after
    ∧ targetId ≠ EmptyString
    ∧ Forall (fun p => conv_type p = USER → resolved (conv_userId p) = None) before.
(** ** Scenarios *)

(** A snapshot with two connections of bob, a recorded route for him in
    call c1, and alice's own connection. *)
Definition snapshot_two_connections : State :=
  mkState ∅ ∅
    {[ "bob" := [mkSocket "s-bob-1" (Some "bob"); mkSocket "s-bob-2" (Some "bob")];
       "alice" := [mkSocket "s-alice" (Some "alice")] ]}
    {[ "c1" := {[ "bob" := "s-bob-2" ]} ]}
    ∅.


(** A conversation between the admin alice and the user bob, their two
    connections, and a connection that never authenticated. *)
Definition conv1 : gmap string (list ConversationParticipant) :=
  {[ "conv1" := [ mkConversationParticipant (Some "alice") ADMIN_GROUP;
                  mkConversationParticipant (Some "bob") USER ] ]}.

Definition alice_sock : Socket := mkSocket "s-alice" (Some "alice").
Definition bob_sock : Socket := mkSocket "s-bob" (Some "bob").
Definition anon_sock : Socket := mkSocket "s-anon" None.

(** Both are connected and alice has initiated call c1, which is ringing. *)
Definition ringing : State :=
  run [ Connect alice_sock; Connect bob_sock;
        Initiate "c1" alice_sock "conv1" VIDEO ]
      (initial conv1 ∅).

(** The ring window elapsed on c1 with no answer. *)
Definition timed_out : State := run [RingTimeout 30%Z "c1"] ringing.

(** Alice hung up while c1 was ringing. *)
Definition hung_up : State := run [End_ 10%Z alice_sock "c1"] ringing.

(** Bob accepts c1 after alice hung up. *)
Definition accepted_after_hang_up : State :=
  run [ Connect alice_sock; Connect bob_sock;
        Initiate "c1" alice_sock "conv1" VIDEO;
        End_ 10%Z alice_sock "c1";
        Accept 50%Z bob_sock "c1" ]
      (initial conv1 ∅).

(** Alice rings bob, who has no connection. *)
Definition bob_offline : State :=
  run [ Connect alice_sock; Initiate "c1" alice_sock "conv1" VIDEO ]
      (initial conv1 ∅).

(** The same connection of bob is subscribed twice and unsubscribed once. *)
Definition subscribed_twice : list PresenceEvent :=
  [ Subscribe "bob" bob_sock; Subscribe "bob" bob_sock; Unsubscribe "bob" bob_sock ].

(** Alice is connected and call c9 lost its second participant row. *)
Definition one_participant : State :=
  mkState conv1
    {[ "c9" := mkCall "c9" "conv1" "alice" VIDEO CallStatus.ONGOING (Some 1%Z) None
                 [ mkCallParticipant (Some "alice") CallParticipantStatus.JOINED
                                     None None ] ]}
    {[ "alice" := [alice_sock] ]} ∅ ∅.
(** * Properties *)

(** ** The router *)

Section RouterProperties.

Implicit Types (st : State) (callId recipient : string)
               (hint exclude : option string).

#[global] Instance ids_nonempty_dec st : Decision (ids_nonempty st).
Proof. unfold ids_nonempty, sockets_named, routes_named. apply _. Defined.

Lemma ids_nonempty_registered st userId set sock :
  ids_nonempty st → clients st !! userId = Some set → sock ∈ set →
  sock_id sock ≠ EmptyString.
Proof.
  intros [Hreg _] Hset Hin. specialize (Hreg userId set Hset). simpl in Hreg.
  rewrite list.Forall_forall in Hreg. exact (Hreg sock Hin).
Qed.

Lemma ids_nonempty_recorded st callId map userId socketId :
  ids_nonempty st → callSocketMap st !! callId = Some map →
  map !! userId = Some socketId → socketId ≠ EmptyString.
Proof.
  intros [_ Hmap] Hc Hu. exact (Hmap callId map Hc userId socketId Hu).
Qed.

Lemma truthy_true s : truthy s = true ↔ s ≠ EmptyString.
Proof.
  unfold truthy. destruct (String.eqb_spec s EmptyString) as [->|Hne]; simpl.
  - split; [discriminate | congruence].
  - split; [done | done].
Qed.

Lemma resolved_Some x s : resolved x = Some s ↔ x = Some s ∧ s ≠ EmptyString.
Proof.
  unfold resolved. destruct x as [t|]; [|naive_solver].
  destruct (truthy t) eqn:Ht.
  - apply truthy_true in Ht. naive_solver.
  - split; [done|]. intros [[= ->] Hs]. apply truthy_true in Hs. congruence.
Qed.

Lemma resolved_nonempty s : s ≠ EmptyString → resolved (Some s) = Some s.
Proof. intros. by apply resolved_Some. Qed.

Lemma resolved_None x : resolved x = None ↔ x = None ∨ x = Some EmptyString.
Proof.
  unfold resolved. destruct x as [t|]; [|naive_solver].
  destruct (truthy t) eqn:Ht.
  - apply truthy_true in Ht. naive_solver.
  - split; [|done]. intros _. right. f_equal.
    destruct (decide (t = EmptyString)) as [|Hne]; [done|].
    apply truthy_true in Hne. congruence.
Qed.

Lemma elem_of_active x userId exclude st :
  x ∈ getActiveSocketIdsForUser userId exclude st ↔
  ∃ set sock, clients st !! userId = Some set ∧ sock ∈ set
              ∧ sock_id sock = x ∧ Some x ≠ exclude.
Proof.
  unfold getActiveSocketIdsForUser. destruct (clients st !! userId) as [set|].
  - rewrite list_elem_of_fmap. split.
    + intros (sock & -> & Hin). apply list_elem_of_filter in Hin as [Hne Hin].
      eauto 6.
    + intros (set' & sock & [= <-] & Hin & <- & Hne).
      exists sock. split; [done|]. by apply list_elem_of_filter.
  - split; [by intros ?%elem_of_nil | naive_solver].
Qed.

Lemma active_not_excluded x userId e st :
  x ∈ getActiveSocketIdsForUser userId (Some e) st → x ≠ e.
Proof. rewrite elem_of_active. naive_solver. Qed.

Lemma head_elem_of {A} (l : list A) x : head l = Some x → x ∈ l.
Proof. destruct l; [done|]. intros [= ->]. left. Qed.

(** C10: the connection the router returns is never the excluded one. *)
Theorem findTarget_never_excluded callId recipient hint e st :
  findTargetSocketForRecipient callId recipient hint (Some e) st ≠ Some e.
Proof.
  unfold findTargetSocketForRecipient.
  destruct (resolved hint) as [to|] eqn:Hhint.
  - case_decide as Hin.
    + intros [= ->]. by apply active_not_excluded in Hin.
    + clear Hin Hhint.
      destruct (callSocketMap st !! callId) as [map|];
        [destruct (resolved (map !! recipient)) as [rec|]; [case_decide|]|];
        try congruence;
        intros Hhd%head_elem_of; by apply active_not_excluded in Hhd.
  - destruct (callSocketMap st !! callId) as [map|];
      [destruct (resolved (map !! recipient)) as [rec|]; [case_decide|]|];
      try congruence;
      intros Hhd%head_elem_of; by apply active_not_excluded in Hhd.
Qed.

(** The gateway's helper lists the active connections of the
    specification. *)
Lemma getActiveSocketIdsForUser_spec recipient exclude st :
  getActiveSocketIdsForUser recipient exclude st
  = activeConnections_spec recipient exclude st.
Proof.
  unfold getActiveSocketIdsForUser, activeConnections_spec.
  destruct (clients st !! recipient) as [set|]; [|reflexivity]. simpl.
  induction set as [|sock set IH]; [reflexivity|].
  rewrite fmap_cons, !filter_cons.
  destruct (decide (Some (sock_id sock) ≠ exclude)).
  - rewrite fmap_cons. by f_equal.
  - done.
Qed.

(** C4: on a well-formed snapshot the router computes exactly the
    three-tier resolution of the specification, as a function of its four
    arguments. *)
Theorem findTarget_resolution_order callId recipient hint exclude st :
  ids_nonempty st →
  findTargetSocketForRecipient callId recipient hint exclude st
  = resolveTarget_spec callId recipient hint exclude st.
Proof.
  intros Hwf.
  unfold findTargetSocketForRecipient, resolveTarget_spec.
  rewrite <- getActiveSocketIdsForUser_spec.
  set (active := getActiveSocketIdsForUser recipient exclude st).
  assert (Hrec :
    match callSocketMap st !! callId with
    | Some map =>
        match resolved (map !! recipient) with
        | Some rec => if decide (Some rec ≠ exclude) then Some rec else None
        | None => None
        end
    | None => None
    end
    = match callSocketMap st !! callId ≫= (fun map => map !! recipient) with
      | Some r => if decide (Some r ≠ exclude) then Some r else None
      | None => None
      end).
  { destruct (callSocketMap st !! callId) as [map|] eqn:Hc; simpl; [|done].
    destruct (map !! recipient) as [r|] eqn:Hr; [|done].
    rewrite resolved_nonempty; [done|]. by eapply ids_nonempty_recorded. }
  rewrite Hrec. clear Hrec.
  assert (Hhint : ∀ h, hint = Some h → h ∈ active → resolved hint = Some h).
  { intros h -> Hin. apply resolved_nonempty.
    apply elem_of_active in Hin as (set & sock & Hs & Hin & <- & _).
    by eapply ids_nonempty_registered. }
  destruct hint as [h|].
  - destruct (decide (h ∈ active)) as [Hin|Hnin].
    + rewrite (Hhint h eq_refl Hin). by rewrite decide_True.
    + unfold resolved.
      destruct (truthy h); [rewrite decide_False by done|];
        destruct (callSocketMap st !! callId ≫= _) as [r|]; simpl;
        try case_decide; done.
  - destruct (callSocketMap st !! callId ≫= _) as [r|]; simpl;
      try case_decide; done.
Qed.

(** The empty string as a hint is no hint. *)
Remark empty_hint_is_no_hint callId recipient exclude st :
  findTargetSocketForRecipient callId recipient (Some EmptyString) exclude st
  = findTargetSocketForRecipient callId recipient None exclude st.
Proof. reflexivity. Qed.

End RouterProperties.

Lemma findTarget_resolution_order_witness :
  ids_nonempty snapshot_two_connections
  ∧ (findTargetSocketForRecipient "c1" "bob" (Some "s-bob-1") None
       snapshot_two_connections
     = resolveTarget_spec "c1" "bob" (Some "s-bob-1") None snapshot_two_connections
     ∧ resolveTarget_spec "c1" "bob" (Some "s-bob-1") None snapshot_two_connections
       = Some "s-bob-1")
  ∧ (findTargetSocketForRecipient "c1" "bob" (Some "s-gone") None
       snapshot_two_connections
     = resolveTarget_spec "c1" "bob" (Some "s-gone") None snapshot_two_connections
     ∧ resolveTarget_spec "c1" "bob" (Some "s-gone") None snapshot_two_connections
       = Some "s-bob-2")
  ∧ (findTargetSocketForRecipient "c1" "bob" None (Some "s-bob-2")
       snapshot_two_connections
     = resolveTarget_spec "c1" "bob" None (Some "s-bob-2") snapshot_two_connections
     ∧ resolveTarget_spec "c1" "bob" None (Some "s-bob-2") snapshot_two_connections
       = Some "s-bob-1")
  ∧ (findTargetSocketForRecipient "c1" "alice" None (Some "s-alice")
       snapshot_two_connections
     = resolveTarget_spec "c1" "alice" None (Some "s-alice") snapshot_two_connections
     ∧ resolveTarget_spec "c1" "alice" None (Some "s-alice") snapshot_two_connections
       = None).
Proof.
  assert (Hwf : ids_nonempty snapshot_two_connections).
  { apply (bool_decide_unpack _). vm_compute. exact I. }
  split; [exact Hwf|].
  split; [split|].
  - exact (findTarget_resolution_order "c1" "bob" (Some "s-bob-1") None
             snapshot_two_connections Hwf).
  - vm_compute. reflexivity.
  - split; [split|].
    + exact (findTarget_resolution_order "c1" "bob" (Some "s-gone") None
               snapshot_two_connections Hwf).
    + vm_compute. reflexivity.
    + split; [split|split].
      * exact (findTarget_resolution_order "c1" "bob" None (Some "s-bob-2")
                 snapshot_two_connections Hwf).
      * vm_compute. reflexivity.
      * exact (findTarget_resolution_order "c1" "alice" None (Some "s-alice")
                 snapshot_two_connections Hwf).
      * vm_compute. reflexivity.
Defined.

Example recorded_route_preferred :
  findTargetSocketForRecipient "c1" "bob" None (Some "s-alice")
    snapshot_two_connections = Some "s-bob-2".
Proof. vm_compute. reflexivity. Qed.

Example hint_preferred :
  findTargetSocketForRecipient "c1" "bob" (Some "s-bob-1") (Some "s-alice")
    snapshot_two_connections = Some "s-bob-1".
Proof. vm_compute. reflexivity. Qed.

(** ** Projections of the updated state *)

Section StateProjections.

Implicit Types (st : State) (callId userId socketId : string).

Lemma calls_set_callSocketMap f st : calls (set_callSocketMap f st) = calls st.
Proof. done. Qed.

Lemma calls_set_calls f st : calls (set_calls f st) = f (calls st).
Proof. done. Qed.

Lemma ringTimeouts_set_callSocketMap f st :
  ringTimeouts (set_callSocketMap f st) = ringTimeouts st.
Proof. done. Qed.

Lemma ringTimeouts_set_calls f st : ringTimeouts (set_calls f st) = ringTimeouts st.
Proof. done. Qed.

Lemma callSocketMap_set_callSocketMap f st :
  callSocketMap (set_callSocketMap f st) = f (callSocketMap st).
Proof. done. Qed.

Lemma callSocketMap_set_calls f st :
  callSocketMap (set_calls f st) = callSocketMap st.
Proof. done. Qed.

Lemma clients_set_calls f st : clients (set_calls f st) = clients st.
Proof. done. Qed.

Lemma clients_set_callSocketMap f st : clients (set_callSocketMap f st) = clients st.
Proof. done. Qed.

Lemma clients_set_ringTimeouts f st : clients (set_ringTimeouts f st) = clients st.
Proof. done. Qed.

Lemma calls_set_ringTimeouts f st : calls (set_ringTimeouts f st) = calls st.
Proof. done. Qed.

Lemma callSocketMap_set_ringTimeouts f st :
  callSocketMap (set_ringTimeouts f st) = callSocketMap st.
Proof. done. Qed.

Lemma ringTimeouts_set_ringTimeouts f st :
  ringTimeouts (set_ringTimeouts f st) = f (ringTimeouts st).
Proof. done. Qed.

Lemma calls_clearRingTimeout callId st :
  calls (clearRingTimeout callId st) = calls st.
Proof. unfold clearRingTimeout. by destruct (ringTimeouts st !! callId). Qed.

Lemma callSocketMap_clearRingTimeout callId st :
  callSocketMap (clearRingTimeout callId st) = callSocketMap st.
Proof. unfold clearRingTimeout. by destruct (ringTimeouts st !! callId). Qed.

Lemma clients_clearRingTimeout callId st :
  clients (clearRingTimeout callId st) = clients st.
Proof. unfold clearRingTimeout. by destruct (ringTimeouts st !! callId). Qed.

Lemma ringTimeouts_clearRingTimeout callId st :
  ringTimeouts (clearRingTimeout callId st) = delete callId (ringTimeouts st).
Proof.
  unfold clearRingTimeout. destruct (ringTimeouts st !! callId) eqn:Ht; [done|].
  by rewrite delete_id.
Qed.

Lemma calls_recordRoute callId userId socketId st :
  calls (recordRoute callId userId socketId st) = calls st.
Proof. unfold recordRoute. by destruct (callSocketMap st !! callId). Qed.

Lemma clients_recordRoute callId userId socketId st :
  clients (recordRoute callId userId socketId st) = clients st.
Proof. unfold recordRoute. by destruct (callSocketMap st !! callId). Qed.

Lemma ringTimeouts_recordRoute callId userId socketId st :
  ringTimeouts (recordRoute callId userId socketId st) = ringTimeouts st.
Proof. unfold recordRoute. by destruct (callSocketMap st !! callId). Qed.

Lemma callSocketMap_recordRoute callId userId socketId st :
  callSocketMap (recordRoute callId userId socketId st)
  = <[callId := <[userId := socketId]> (default ∅ (callSocketMap st !! callId))]>
      (callSocketMap st).
Proof.
  unfold recordRoute.
  destruct (callSocketMap st !! callId) as [m|] eqn:Hm; simpl;
    apply map_eq; intros k; destruct (decide (callId = k)) as [<-|Hne].
  - by rewrite lookup_alter_eq, lookup_insert_eq, Hm.
  - by rewrite lookup_alter_ne, lookup_insert_ne.
  - by rewrite lookup_alter_eq, !lookup_insert_eq.
  - by rewrite lookup_alter_ne, !lookup_insert_ne.
Qed.

End StateProjections.

Create Rewrite HintDb state_proj.

#[export] Hint Rewrite
  calls_set_calls calls_set_callSocketMap calls_set_ringTimeouts
  clients_set_calls clients_set_callSocketMap clients_set_ringTimeouts
  callSocketMap_set_calls callSocketMap_set_callSocketMap
  callSocketMap_set_ringTimeouts
  ringTimeouts_set_calls ringTimeouts_set_callSocketMap
  ringTimeouts_set_ringTimeouts
  calls_clearRingTimeout clients_clearRingTimeout callSocketMap_clearRingTimeout
  ringTimeouts_clearRingTimeout
  calls_recordRoute clients_recordRoute ringTimeouts_recordRoute
  callSocketMap_recordRoute : state_proj.


(** ** The call state machine *)

Section MachineProperties.

Implicit Types (st : State) (callId userId : string) (client : Socket)
               (call : Call) (now : Time).

(** The guard the handlers open with. *)
Lemma unauthorized_is_rejected now newId client conversationId type callId st :
  resolved (data_userId client) = None →
  initiateCall newId client conversationId type st = emitError client "Unauthorized" st
  ∧ acceptCall now client callId st = emitError client "Unauthorized" st
  ∧ rejectCall now client callId st = emitError client "Unauthorized" st.
Proof.
  intros Hnone. unfold initiateCall, acceptCall, rejectCall. rewrite Hnone.
  repeat split.
Qed.

(** C3: a reject by a participant marks the call MISSED with an end
    timestamp and every row of the acting participant MISSED with a leave
    timestamp, whatever the status of the call and of the other rows. *)
Theorem reject_marks_call_and_participant_missed now client callId st call userId :
  data_userId client = Some userId →
  userId ≠ EmptyString →
  calls st !! callId = Some call →
  Some userId ∈ cp_userId <$> call_participants call →
  ∃ call',
    calls (state_of (rejectCall now client callId st)) !! callId = Some call'
    ∧ response (rejectCall now client callId st) = successResponse "Call rejected"
    ∧ call_status call' = CallStatus.MISSED
    ∧ call_endedAt call' = Some now
    ∧ (∃ p, p ∈ call_participants call' ∧ cp_userId p = Some userId)
    ∧ (∀ p, p ∈ call_participants call' → cp_userId p = Some userId →
            cp_status p = CallParticipantStatus.MISSED ∧ cp_leftAt p = Some now).
Proof.
  intros Hid Hne Hcall Hpart.
  unfold rejectCall. rewrite Hid, (resolved_nonempty _ Hne), Hcall.
  unfold state_of, response; simpl.
  rewrite calls_clearRingTimeout; simpl.
  rewrite !lookup_alter, !decide_True by done. rewrite Hcall; simpl.
  eexists. split; [reflexivity|]. simpl.
  repeat split.
  - apply list_elem_of_fmap in Hpart as (p & Hp & Hin).
    exists (participant_missed now p). split.
    + apply list_elem_of_fmap. exists p. split; [|done].
      by rewrite decide_True.
    + done.
  - apply list_elem_of_fmap in H as (q & -> & Hq).
    case_decide; [done|]. congruence.
  - apply list_elem_of_fmap in H as (q & -> & Hq).
    case_decide; [done|]. congruence.
Qed.


(** *** What each operation does to the call table *)

Lemma acceptCall_calls now client callId st call userId :
  resolved (data_userId client) = Some userId →
  calls st !! callId = Some call →
  calls (state_of (acceptCall now client callId st))
  = <[callId := accepted now userId call]> (calls st).
Proof.
  intros Hid Hcall. unfold acceptCall. rewrite Hid, Hcall.
  unfold state_of; simpl.
  rewrite calls_clearRingTimeout, calls_recordRoute.
  unfold accepted.
  apply map_eq. intros k. destruct (decide (callId = k)) as [<-|Hne].
  - rewrite lookup_insert_eq.
    case_decide; simpl; rewrite ?lookup_alter_eq, Hcall; done.
  - rewrite lookup_insert_ne by done.
    case_decide; simpl; rewrite ?lookup_alter_ne by done; done.
Qed.

Lemma accepted_status now userId call :
  call_status (accepted now userId call)
  = if decide (call_status call = CallStatus.INITIATED)
    then CallStatus.ONGOING else call_status call.
Proof. unfold accepted. by case_decide. Qed.

Lemma accepted_startedAt now userId call :
  call_startedAt (accepted now userId call)
  = if decide (call_status call = CallStatus.INITIATED)
    then Some now else call_startedAt call.
Proof. unfold accepted. by case_decide. Qed.

Lemma accepted_participants now userId call :
  call_participants (accepted now userId call)
  = match list_find (fun p => cp_userId p = Some userId) (call_participants call) with
    | Some (existing, _) =>
        alter (participant_joined now) existing (call_participants call)
    | None =>
        (call_participants call
           ++ [mkCallParticipant (Some userId) CallParticipantStatus.JOINED
                                 (Some now) None])%list
    end.
Proof. unfold accepted. by case_decide. Qed.





Lemma emitError_state client message st : state_of (emitError client message st) = st.
Proof. done. Qed.

Lemma forward_calls event payload message client callId to st :
  calls (state_of (forward event payload message client callId to st)) = calls st.
Proof.
  unfold forward. repeat case_match; try done.
  unfold state_of; cbn [fst snd]. apply calls_recordRoute.
Qed.

Lemma forward_ringTimeouts event payload message client callId to st :
  ringTimeouts (state_of (forward event payload message client callId to st))
  = ringTimeouts st.
Proof.
  unfold forward. repeat case_match; try done.
  unfold state_of; cbn [fst snd]. apply ringTimeouts_recordRoute.
Qed.

Lemma forward_clients event payload message client callId to st :
  clients (state_of (forward event payload message client callId to st)) = clients st.
Proof.
  unfold forward. repeat case_match; try done.
  unfold state_of; cbn [fst snd]. apply clients_recordRoute.
Qed.

Lemma subscribeClient_calls userId client st :
  calls (subscribeClient userId client st) = calls st.
Proof. unfold subscribeClient. by destruct (clients st !! userId). Qed.

Lemma unsubscribeClient_calls userId client st :
  calls (unsubscribeClient userId client st) = calls st.
Proof. unfold unsubscribeClient. repeat case_match; done. Qed.

Lemma subscribeClient_ringTimeouts userId client st :
  ringTimeouts (subscribeClient userId client st) = ringTimeouts st.
Proof. unfold subscribeClient. by destruct (clients st !! userId). Qed.

Lemma unsubscribeClient_ringTimeouts userId client st :
  ringTimeouts (unsubscribeClient userId client st) = ringTimeouts st.
Proof. unfold unsubscribeClient. repeat case_match; done. Qed.

Lemma step_status op st callId call :
  calls st !! callId = Some call →
  ∃ call', calls (step op st) !! callId = Some call'
           ∧ status_step op callId call call'.
Proof.
  intros Hcall.
  destruct op as [client|client|newId client conv type|now client c|now client c
                 |now client c|now c|client payload|client payload|client payload];
    simpl.
  - exists call. split; [|by constructor]. unfold handleConnection.
    destruct (data_userId client); [|done]. by rewrite subscribeClient_calls.
  - exists call. split; [|by constructor]. unfold handleDisconnect.
    destruct (resolved (data_userId client)); [|done].
    by rewrite unsubscribeClient_calls.
  - exists call. split; [|by constructor]. unfold initiateCall.
    repeat case_match; try done;
      unfold state_of, setRingTimeout; simpl;
      rewrite calls_clearRingTimeout; simpl;
      (rewrite lookup_insert_ne; [done | congruence]).
  - unfold acceptCall.
    destruct (resolved (data_userId client)) as [userId|] eqn:Hid;
      [|exists call; split; [done | by constructor]].
    destruct (calls st !! c) as [call0|] eqn:Hc;
      [|exists call; split; [done | by constructor]].
    pose proof (acceptCall_calls now client c st call0 userId Hid Hc) as Hcalls.
    unfold acceptCall in Hcalls. rewrite Hid, Hc in Hcalls. rewrite Hcalls.
    destruct (decide (c = callId)) as [->|Hne].
    + rewrite lookup_insert_eq. assert (call0 = call) as -> by congruence.
      eexists. split; [done|].
      destruct (decide (call_status call = CallStatus.INITIATED)) as [Hi|Hi].
      * eapply status_accepted; [done | done |].
        rewrite accepted_status. by rewrite decide_True.
      * apply status_kept.
        -- rewrite accepted_status. by rewrite decide_False.
        -- rewrite accepted_startedAt. by rewrite decide_False.
    + rewrite lookup_insert_ne by done. exists call. split; [done | by constructor].
  - unfold rejectCall.
    destruct (resolved (data_userId client)) as [userId|] eqn:Hid;
      [|exists call; split; [done | by constructor]].
    destruct (calls st !! c) as [call0|] eqn:Hc;
      [|exists call; split; [done | by constructor]].
    unfold state_of; simpl. rewrite calls_clearRingTimeout; simpl.
    destruct (decide (c = callId)) as [->|Hne].
    + rewrite !lookup_alter_eq, Hcall; simpl.
      eexists. split; [done|]. by eapply status_rejected.
    + rewrite !lookup_alter_ne by done. exists call. split; [done | by constructor].
  - unfold endCall.
    destruct (calls st !! c) as [call0|] eqn:Hc;
      [|exists call; split; [done | by constructor]].
    unfold state_of; simpl. rewrite calls_clearRingTimeout; simpl.
    destruct (decide (c = callId)) as [->|Hne].
    + rewrite lookup_insert_eq. eexists. split; [done|]. by eapply status_ended.
    + rewrite lookup_insert_ne by done. exists call. split; [done | by constructor].
  - unfold ringTimeout.
    destruct (ringTimeouts st !! c) as [ms|] eqn:Ht; simpl;
      [|exists call; split; [done | by constructor]].
    rewrite calls_clearRingTimeout.
    destruct (calls st !! c) as [call0|] eqn:Hc; simpl;
      [|exists call; split; [done | by constructor]].
    destruct (decide (c = callId)) as [->|Hne].
    + rewrite lookup_alter_eq, Hcall; simpl.
      eexists. split; [done|]. by eapply status_timed_out.
    + rewrite lookup_alter_ne by done. exists call. split; [done | by constructor].
  - exists call. split; [|by constructor]. unfold forwardOffer.
    by rewrite forward_calls.
  - exists call. split; [|by constructor]. unfold forwardAnswer.
    by rewrite forward_calls.
  - exists call. split; [|by constructor]. unfold forwardCandidate.
    by rewrite forward_calls.
Qed.

(** C1 as stated fails: End on a call that the ring timeout marked MISSED
    changes its status to ENDED. *)
Lemma terminal_status_overwritten_by_end :
  ¬ (∀ op st callId call call',
       calls st !! callId = Some call →
       CallStatus.terminal (call_status call) = true →
       calls (step op st) !! callId = Some call' →
       call_status call' = call_status call).
Proof.
  intros Hfrozen.
  assert (Hbefore : call_status <$> calls timed_out !! "c1" = Some CallStatus.MISSED)
    by (vm_compute; reflexivity).
  assert (Hafter : call_status <$> calls (step (End_ 40%Z alice_sock "c1") timed_out)
                                     !! "c1" = Some CallStatus.ENDED)
    by (vm_compute; reflexivity).
  destruct (calls timed_out !! "c1") as [call|] eqn:Hcall; [|discriminate].
  destruct (calls (step (End_ 40%Z alice_sock "c1") timed_out) !! "c1")
    as [call'|] eqn:Hcall'; [|discriminate].
  simpl in Hbefore, Hafter.
  injection Hbefore as Hb. injection Hafter as Ha.
  specialize (Hfrozen (End_ 40%Z alice_sock "c1") _ _ _ call' Hcall).
  rewrite Hb in Hfrozen. specialize (Hfrozen eq_refl Hcall').
  congruence.
Qed.

(** *** The ring timer *)

Lemma step_ringTimeouts_settled op st callId :
  settled callId st → ringTimeouts (step op st) !! callId = None.
Proof.
  intros [[call Hcall] Hnone].
  destruct op as [client|client|newId client conv type|now client c|now client c
                 |now client c|now c|client payload|client payload|client payload];
    simpl.
  - unfold handleConnection. destruct (data_userId client); [|done].
    by rewrite subscribeClient_ringTimeouts.
  - unfold handleDisconnect. destruct (resolved (data_userId client)); [|done].
    by rewrite unsubscribeClient_ringTimeouts.
  - unfold initiateCall.
    repeat case_match; try done;
      unfold state_of, setRingTimeout; simpl;
      rewrite ringTimeouts_clearRingTimeout; simpl;
      (rewrite lookup_insert_ne by congruence);
      (rewrite lookup_delete_ne by congruence); done.
  - unfold acceptCall. repeat case_match; try done;
      unfold state_of; cbn [fst snd];
      rewrite ringTimeouts_clearRingTimeout, ringTimeouts_recordRoute; simpl;
      rewrite lookup_delete; destruct (decide (c = callId)); done.
  - unfold rejectCall. repeat case_match; try done.
    unfold state_of; simpl.
    rewrite ringTimeouts_clearRingTimeout; simpl.
    rewrite lookup_delete; destruct (decide (c = callId)); done.
  - unfold endCall. repeat case_match; try done.
    unfold state_of; simpl.
    rewrite ringTimeouts_clearRingTimeout; simpl.
    rewrite lookup_delete; destruct (decide (c = callId)); done.
  - unfold ringTimeout. destruct (ringTimeouts st !! c) eqn:Ht; simpl; [|done].
    rewrite ringTimeouts_clearRingTimeout.
    destruct (calls st !! c); simpl; rewrite lookup_delete;
      destruct (decide (c = callId)); done.
  - unfold forwardOffer. by rewrite forward_ringTimeouts.
  - unfold forwardAnswer. by rewrite forward_ringTimeouts.
  - unfold forwardCandidate. by rewrite forward_ringTimeouts.
Qed.

Lemma settled_step op st callId : settled callId st → settled callId (step op st).
Proof.
  intros Hs. split; [|by apply step_ringTimeouts_settled].
  destruct Hs as [[call Hcall] _].
  destruct (step_status op st callId call Hcall) as (call' & -> & _). eauto.
Qed.

Lemma settled_run ops st callId : settled callId st → settled callId (run ops st).
Proof.
  revert st. induction ops as [|op ops IH]; intros st Hs; [done|].
  simpl. apply IH. by apply settled_step.
Qed.

Lemma settles_establishes_settled op st callId :
  settles op callId → succeeded (respond op st) = true →
  settled callId (step op st).
Proof.
  destruct op as [client|client|newId client conv type|now client c|now client c
                 |now client c|now c|client payload|client payload|client payload];
    simpl; try done; intros -> Hok.
  - unfold acceptCall in *.
    destruct (resolved (data_userId client)) as [userId|] eqn:Hid; [|done].
    destruct (calls st !! callId) as [call|] eqn:Hc; [|done].
    pose proof (acceptCall_calls now client callId st call userId Hid Hc) as Hcalls.
    unfold acceptCall in Hcalls. rewrite Hid, Hc in Hcalls.
    split.
    + rewrite Hcalls, lookup_insert_eq. eauto.
    + unfold state_of; cbn [fst snd].
      rewrite ringTimeouts_clearRingTimeout. apply lookup_delete_eq.
  - unfold rejectCall in *.
    destruct (resolved (data_userId client)) as [userId|] eqn:Hid; [|done].
    destruct (calls st !! callId) as [call|] eqn:Hc; [|done].
    unfold state_of; cbn [fst snd]. split.
    + rewrite calls_set_callSocketMap, calls_clearRingTimeout, !calls_set_calls.
      rewrite !lookup_alter_eq, Hc. eauto.
    + rewrite ringTimeouts_set_callSocketMap, ringTimeouts_clearRingTimeout.
      apply lookup_delete_eq.
  - unfold endCall in *.
    destruct (calls st !! callId) as [call|] eqn:Hc; [|done].
    unfold state_of; cbn [fst snd]. split.
    + rewrite calls_set_callSocketMap, calls_clearRingTimeout, calls_set_calls.
      rewrite lookup_insert_eq. eauto.
    + rewrite ringTimeouts_set_callSocketMap, ringTimeouts_clearRingTimeout.
      apply lookup_delete_eq.
Qed.

(** When the handlers run one after the other, none interrupted: after an
    Accept, Reject or End for a call has gone through, the ring timer of
    that call is gone and stays gone, and in every continuation of the
    execution the timer callback for that call cannot run. *)
Lemma ring_timeout_never_fires_after_settling op st callId ops now :
  settles op callId →
  succeeded (respond op st) = true →
  ringTimeouts (step op st) !! callId = None
  ∧ ringTimeout now callId (run ops (step op st)) = None.
Proof.
  intros Hop Hok.
  pose proof (settles_establishes_settled op st callId Hop Hok) as Hs.
  split; [apply Hs|].
  destruct (settled_run ops _ _ Hs) as [_ Hnone].
  unfold ringTimeout. by rewrite Hnone.
Qed.

Lemma ring_timeout_never_fires_after_settling_witness :
  ringTimeouts ringing !! "c1" = Some 30000%Z
  ∧ ringTimeouts (step (Accept 5%Z bob_sock "c1") ringing) !! "c1" = None
  ∧ ringTimeout 30%Z "c1"
      (run [Offer alice_sock (mkRTCOfferDto "c1" "sdp" None)]
           (step (Accept 5%Z bob_sock "c1") ringing)) = None.
Proof.
  split; [vm_compute; reflexivity|].
  apply (ring_timeout_never_fires_after_settling
           (Accept 5%Z bob_sock "c1") ringing "c1"
           [Offer alice_sock (mkRTCOfferDto "c1" "sdp" None)] 30%Z).
  - reflexivity.
  - vm_compute. reflexivity.
Defined.


(** *** The call socket map *)

(** C9: the operation that brings a call to a terminal status (a Reject or
    End that goes through, a ring timeout that fires on an existing call)
    leaves no call socket map entry for it. *)
Theorem terminating_step_drops_route op st callId :
  terminates op callId →
  takes_effect op st = true →
  ∃ call',
    calls (step op st) !! callId = Some call'
    ∧ CallStatus.terminal (call_status call') = true
    ∧ callSocketMap (step op st) !! callId = None.
Proof.
  destruct op as [client|client|newId client conv type|now client c|now client c
                 |now client c|now c|client payload|client payload|client payload];
    simpl; try done; intros -> Hok.
  - unfold rejectCall in *.
    destruct (resolved (data_userId client)) as [userId|] eqn:Hid; [|done].
    destruct (calls st !! callId) as [call|] eqn:Hc; [|done].
    unfold state_of; cbn [fst snd].
    rewrite calls_set_callSocketMap, calls_clearRingTimeout, !calls_set_calls.
    rewrite !lookup_alter_eq, Hc. eexists. split; [done|]. split; [done|].
    rewrite callSocketMap_set_callSocketMap. apply lookup_delete_eq.
  - unfold endCall in *.
    destruct (calls st !! callId) as [call|] eqn:Hc; [|done].
    unfold state_of; cbn [fst snd].
    rewrite calls_set_callSocketMap, calls_clearRingTimeout, calls_set_calls.
    rewrite lookup_insert_eq. eexists. split; [done|]. split; [done|].
    rewrite callSocketMap_set_callSocketMap. apply lookup_delete_eq.
  - apply andb_prop in Hok as [Ht Hc].
    apply bool_decide_eq_true in Ht as [ms Ht].
    apply bool_decide_eq_true in Hc as [call Hc].
    unfold ringTimeout. rewrite Ht, Hc. simpl.
    rewrite calls_clearRingTimeout, callSocketMap_clearRingTimeout.
    rewrite calls_set_callSocketMap, calls_set_calls, lookup_alter_eq, Hc.
    eexists. split; [done|]. split; [done|].
    rewrite callSocketMap_set_callSocketMap. apply lookup_delete_eq.
Qed.

Lemma terminating_step_drops_route_witness :
  is_Some (callSocketMap ringing !! "c1")
  ∧ ∃ call',
      calls (step (RingTimeout 30%Z "c1") ringing) !! "c1" = Some call'
      ∧ CallStatus.terminal (call_status call') = true
      ∧ callSocketMap (step (RingTimeout 30%Z "c1") ringing) !! "c1" = None.
Proof.
  split; [vm_compute; eauto|].
  apply (terminating_step_drops_route (RingTimeout 30%Z "c1") ringing "c1").
  - reflexivity.
  - vm_compute. reflexivity.
Defined.

(** C9 as stated fails: an Accept for a call that has ended records the
    connection of the accepting user again. *)
Lemma terminated_call_route_recreated :
  ¬ (∀ st, reachable st →
       ∀ callId call,
         calls st !! callId = Some call →
         CallStatus.terminal (call_status call) = true →
         callSocketMap st !! callId = None).
Proof.
  intros Hclean.
  assert (Hreach : reachable accepted_after_hang_up).
  { exists conv1. eexists. reflexivity. }
  assert (Hstatus : call_status <$> calls accepted_after_hang_up !! "c1"
                    = Some CallStatus.ENDED) by (vm_compute; reflexivity).
  assert (Hroute : callSocketMap accepted_after_hang_up !! "c1"
                     ≫= (fun map => map !! "bob") = Some "s-bob")
    by (vm_compute; reflexivity).
  destruct (calls accepted_after_hang_up !! "c1") as [call|] eqn:Hcall;
    [|discriminate].
  injection Hstatus as Hstatus.
  rewrite (Hclean _ Hreach "c1" call Hcall) in Hroute; [discriminate|].
  by rewrite Hstatus.
Qed.

Example relay_recreates_route_of_ended_call :
  callSocketMap hung_up !! "c1" = None
  ∧ callSocketMap
      (step (Offer alice_sock (mkRTCOfferDto "c1" "sdp" None)) hung_up) !! "c1"
      ≫= (fun map => map !! "alice") = Some "s-alice".
Proof. split; vm_compute; reflexivity. Qed.

(** *** Identity checks *)

(** On a call that exists, [endCall] never looks at the connection it is
    called on. *)
Lemma endCall_ignores_client now client client' callId st :
  is_Some (calls st !! callId) →
  endCall now client callId st = endCall now client' callId st.
Proof. intros [call Hcall]. unfold endCall. rewrite Hcall. reflexivity. Qed.

(** C2 fails for End: called on a connection with no user identity, End
    answers with a success response, emits no error, sets the ringing call
    to ENDED, cancels its timer and drops its call socket map entry. *)
Theorem endCall_proceeds_without_identity :
  resolved (data_userId anon_sock) = None
  ∧ call_status <$> calls ringing !! "c1" = Some CallStatus.INITIATED
  ∧ ringTimeouts ringing !! "c1" = Some 30000%Z
  ∧ callSocketMap ringing !! "c1" ≫= (fun map => map !! "alice") = Some "s-alice"
  ∧ response (endCall 10%Z anon_sock "c1" ringing) = successResponse "Call ended"
  ∧ emitted (endCall 10%Z anon_sock "c1" ringing)
    = [ mkEmit "s-alice" CALL_END (PEnded "c1");
        mkEmit "s-bob" CALL_END (PEnded "c1") ]
  ∧ call_status <$> calls (state_of (endCall 10%Z anon_sock "c1" ringing)) !! "c1"
    = Some CallStatus.ENDED
  ∧ ringTimeouts (state_of (endCall 10%Z anon_sock "c1" ringing)) !! "c1" = None
  ∧ callSocketMap (state_of (endCall 10%Z anon_sock "c1" ringing)) !! "c1" = None.
Proof. repeat split; vm_compute; reflexivity. Qed.

(** *** Instances *)

Lemma reject_marks_call_and_participant_missed_witness :
  call_status <$> calls (step (Accept 5%Z bob_sock "c1") ringing) !! "c1"
  = Some CallStatus.ONGOING
  ∧ ∃ call',
      calls (state_of (rejectCall 7%Z alice_sock "c1"
                         (step (Accept 5%Z bob_sock "c1") ringing))) !! "c1"
      = Some call'
      ∧ call_status call' = CallStatus.MISSED
      ∧ call_endedAt call' = Some 7%Z.
Proof.
  split; [vm_compute; reflexivity|].
  destruct (calls (step (Accept 5%Z bob_sock "c1") ringing) !! "c1")
    as [call|] eqn:Hcall; [|vm_compute in Hcall; discriminate].
  assert (Hpart : Some "alice" ∈ cp_userId <$> call_participants call).
  { vm_compute in Hcall. injection Hcall as <-. simpl. left. }
  destruct (reject_marks_call_and_participant_missed 7%Z alice_sock "c1"
              (step (Accept 5%Z bob_sock "c1") ringing) call "alice"
              eq_refl ltac:(discriminate) Hcall Hpart)
    as (call' & Hc & _ & Hs & He & _).
  exists call'. split; [exact Hc|]. split; [exact Hs | exact He].
Defined.



End MachineProperties.

(** ** The ring timer against a suspended handler *)

Section AwaitsProps.

(** Run without interruption, the two parts of each handler are the
    handler. *)
Lemma acceptCall_segments now client callId st :
  acceptCall now client callId st
  = match acceptCall_until_update now client callId st with
    | inl out => out
    | inr (userId, call, st2) =>
        acceptCall_after_update client callId userId call st2
    end.
Proof.
  unfold acceptCall, acceptCall_until_update.
  destruct (resolved (data_userId client)); [|reflexivity].
  destruct (calls st !! callId); reflexivity.
Qed.

Lemma rejectCall_segments now client callId st :
  rejectCall now client callId st
  = match rejectCall_until_update now client callId st with
    | inl out => out
    | inr (userId, call, st2) =>
        rejectCall_after_update client callId userId call st2
    end.
Proof.
  unfold rejectCall, rejectCall_until_update.
  destruct (resolved (data_userId client)); [|reflexivity].
  destruct (calls st !! callId); reflexivity.
Qed.

Lemma endCall_segments now client callId st :
  endCall now client callId st
  = match endCall_until_update now client callId st with
    | inl out => out
    | inr (call, st1) => endCall_after_update callId call st1
    end.
Proof.
  unfold endCall, endCall_until_update.
  destruct (calls st !! callId); reflexivity.
Qed.

Lemma ringTimeout_segments now callId st :
  ringTimeout now callId st
  = '(updated, st1) ← ringTimeout_until_update now callId st;
    Some (ringTimeout_after_update callId updated st1).
Proof.
  unfold ringTimeout, ringTimeout_until_update.
  destruct (ringTimeouts st !! callId); [|reflexivity].
  destruct (calls st !! callId); reflexivity.
Qed.

(** A handler suspended at the update of the call row has written the
    status and has not touched the timer: a timer that was armed when the
    handler started is armed while it awaits. *)
Lemma acceptCall_until_update_timer now client callId st userId call st2 :
  acceptCall_until_update now client callId st = inr (userId, call, st2) →
  ringTimeouts st2 = ringTimeouts st
  ∧ (call_status call = CallStatus.INITIATED →
     call_status <$> calls st2 !! callId = Some CallStatus.ONGOING).
Proof.
  unfold acceptCall_until_update.
  destruct (resolved (data_userId client)) as [u|]; [|done].
  destruct (calls st !! callId) as [c|] eqn:Hcall; [|done].
  intros [= <- <- <-]. split.
  - by destruct (decide (call_status c = CallStatus.INITIATED)).
  - intros Hinit. rewrite decide_True by done.
    rewrite calls_set_calls, lookup_alter_eq.
    rewrite calls_set_calls, lookup_alter_eq, Hcall. reflexivity.
Qed.

Lemma rejectCall_until_update_timer now client callId st userId call st2 :
  rejectCall_until_update now client callId st = inr (userId, call, st2) →
  ringTimeouts st2 = ringTimeouts st
  ∧ call_status <$> calls st2 !! callId = Some CallStatus.MISSED.
Proof.
  unfold rejectCall_until_update.
  destruct (resolved (data_userId client)) as [u|]; [|done].
  destruct (calls st !! callId) as [c|] eqn:Hcall; [|done].
  intros [= <- <- <-]. split; [reflexivity|].
  rewrite calls_set_calls, lookup_alter_eq.
  rewrite calls_set_calls, lookup_alter_eq, Hcall. reflexivity.
Qed.

Lemma endCall_until_update_timer now client callId st call st1 :
  endCall_until_update now client callId st = inr (call, st1) →
  ringTimeouts st1 = ringTimeouts st
  ∧ call_status <$> calls st1 !! callId = Some CallStatus.ENDED.
Proof.
  unfold endCall_until_update.
  destruct (calls st !! callId) as [c|] eqn:Hcall; [|done].
  intros [= <- <-]. split; [reflexivity|].
  rewrite calls_set_calls, lookup_insert_eq. reflexivity.
Qed.

(** The timer callback of a call whose timer is armed marks the call
    MISSED, whatever its status. *)
Lemma ringTimeout_until_update_missed now callId st call :
  is_Some (ringTimeouts st !! callId) →
  calls st !! callId = Some call →
  ∃ st1, ringTimeout_until_update now callId st = Some (true, st1)
         ∧ calls st1 !! callId = Some (call_finished CallStatus.MISSED now call).
Proof.
  intros [t Ht] Hcall. unfold ringTimeout_until_update. rewrite Ht, Hcall.
  eexists. split; [reflexivity|].
  rewrite calls_set_calls, lookup_alter_eq, Hcall. reflexivity.
Qed.

(** C5 fails on the code: bob accepts the ringing call c1 as the ring
    window runs out.  [acceptCall] writes ONGOING and awaits the update with
    the timer still armed; the timer runs out and its callback marks the
    call MISSED; [acceptCall] resumes, cancels the timer that has fired,
    answers that the call is accepted and tells the caller so; the callback
    resumes and drops the route.  The accepted call is left MISSED. *)
Theorem ring_timeout_fires_during_accept :
  ∃ call st1 st2,
    ringTimeouts ringing !! "c1" = Some 30000%Z
    ∧ acceptCall_until_update 29%Z bob_sock "c1" ringing = inr ("bob", call, st1)
    ∧ call_status <$> calls st1 !! "c1" = Some CallStatus.ONGOING
    ∧ ringTimeouts st1 !! "c1" = Some 30000%Z
    ∧ ringTimeout_until_update 30%Z "c1" st1 = Some (true, st2)
    ∧ call_status <$> calls st2 !! "c1" = Some CallStatus.MISSED
    ∧ let out := acceptCall_after_update bob_sock "c1" "bob" call st2 in
      response out = successResponse "Call accepted"
      ∧ emitted out = [mkEmit "s-alice" CALL_ACCEPT (PAccepted "c1" "bob")]
      ∧ ringTimeouts (state_of out) !! "c1" = None
      ∧ let st4 := ringTimeout_after_update "c1" true (state_of out) in
        call_status <$> calls st4 !! "c1" = Some CallStatus.MISSED
        ∧ call_startedAt <$> calls st4 !! "c1" = Some (Some 29%Z)
        ∧ call_endedAt <$> calls st4 !! "c1" = Some (Some 30%Z)
        ∧ callSocketMap st4 !! "c1" = None.
Proof.
  eexists _, _, _. split; [vm_compute; reflexivity|].
  split; [reflexivity|].
  split; [vm_compute; reflexivity|].
  split; [vm_compute; reflexivity|].
  split; [reflexivity|].
  vm_compute. repeat split; reflexivity.
Qed.

(** The same await in [endCall]: the call alice hangs up as the ring window
    runs out is left MISSED, not ENDED, after End has answered. *)
Example ring_timeout_fires_during_end :
  ∃ call st1 st2,
    endCall_until_update 29%Z alice_sock "c1" ringing = inr (call, st1)
    ∧ call_status <$> calls st1 !! "c1" = Some CallStatus.ENDED
    ∧ ringTimeouts st1 !! "c1" = Some 30000%Z
    ∧ ringTimeout_until_update 30%Z "c1" st1 = Some (true, st2)
    ∧ let out := endCall_after_update "c1" call st2 in
      response out = successResponse "Call ended"
      ∧ let st4 := ringTimeout_after_update "c1" true (state_of out) in
        call_status <$> calls st4 !! "c1" = Some CallStatus.MISSED.
Proof.
  eexists _, _, _. split; [reflexivity|].
  split; [vm_compute; reflexivity|].
  split; [vm_compute; reflexivity|].
  split; [reflexivity|].
  vm_compute. repeat split; reflexivity.
Qed.

End AwaitsProps.

(** ** The signalling relay *)

Section RelayProperties.

Implicit Types (st : State) (client : Socket) (callId : string).

Lemma forward_unavailable event payload message client callId to st from call otherId :
  resolved (data_userId client) = Some from →
  calls st !! callId = Some call →
  other_participant from (call_participants call)
    ≫= (fun other => resolved (cp_userId other)) = Some otherId →
  findTargetSocketForRecipient (call_id call) otherId to (Some (sock_id client)) st
  = None →
  forward event payload message client callId to st
  = emitError client "Recipient not available" st.
Proof.
  intros Hid Hcall Hother Htarget. unfold forward.
  by rewrite Hid, Hcall, Hother, Htarget.
Qed.

(** C8: a relay forward never changes the call table, and when the router
    finds no live connection for the recipient the handler answers
    "Recipient not available", emits the error to the connection of the
    sender and nothing else, and returns the state it was given. *)
Theorem relay_unavailable_changes_nothing op st client callId to out :
  relay op st = Some (client, callId, to, out) →
  calls (state_of out) = calls st
  ∧ ∀ from call otherId,
      resolved (data_userId client) = Some from →
      calls st !! callId = Some call →
      other_participant from (call_participants call)
        ≫= (fun other => resolved (cp_userId other)) = Some otherId →
      findTargetSocketForRecipient (call_id call) otherId to
        (Some (sock_id client)) st = None →
      response out = errorResponse "Recipient not available"
      ∧ emitted out
        = [mkEmit (sock_id client) ERROR (PError "Recipient not available")]
      ∧ state_of out = st.
Proof.
  intros Hrelay.
  destruct op as [c|c|newId c conv type|now c id|now c id|now c id|now id
                 |c payload|c payload|c payload];
    simpl in Hrelay; try done; injection Hrelay as <- <- <- <-.
  - split; [apply forward_calls|]. intros from call otherId Hid Hcall Hother Htarget.
    unfold forwardOffer. by rewrite (forward_unavailable _ _ _ _ _ _ _ from call otherId).
  - split; [apply forward_calls|]. intros from call otherId Hid Hcall Hother Htarget.
    unfold forwardAnswer. by rewrite (forward_unavailable _ _ _ _ _ _ _ from call otherId).
  - split; [apply forward_calls|]. intros from call otherId Hid Hcall Hother Htarget.
    unfold forwardCandidate.
    by rewrite (forward_unavailable _ _ _ _ _ _ _ from call otherId).
Qed.

Lemma relay_unavailable_changes_nothing_witness :
  response (forwardOffer alice_sock (mkRTCOfferDto "c1" "sdp" None) bob_offline)
  = errorResponse "Recipient not available"
  ∧ emitted (forwardOffer alice_sock (mkRTCOfferDto "c1" "sdp" None) bob_offline)
    = [mkEmit "s-alice" ERROR (PError "Recipient not available")]
  ∧ state_of (forwardOffer alice_sock (mkRTCOfferDto "c1" "sdp" None) bob_offline)
    = bob_offline.
Proof.
  destruct (calls bob_offline !! "c1") as [call|] eqn:Hcall;
    [|vm_compute in Hcall; discriminate].
  refine (proj2 (relay_unavailable_changes_nothing
                   (Offer alice_sock (mkRTCOfferDto "c1" "sdp" None)) bob_offline
                   alice_sock "c1" None _ eq_refl)
                "alice" call "bob" eq_refl Hcall _ _);
    vm_compute in Hcall; injection Hcall as <-; vm_compute; reflexivity.
Defined.

End RelayProperties.

(** ** The presence registry *)

Section RegistryProperties.

Implicit Types (st : State) (userId u : string) (client : Socket)
               (set : list Socket) (evs : list PresenceEvent).

Lemma set_add_nonempty client set : set_add client set ≠ [].
Proof.
  unfold set_add. case_decide as Hin.
  - intros ->. by apply elem_of_nil in Hin.
  - by destruct set.
Qed.

Lemma set_add_members client set :
  list_to_set (C := gset Socket) (set_add client set) = {[ client ]} ∪ list_to_set set.
Proof.
  unfold set_add. case_decide as Hin.
  - apply set_eq. intros x. rewrite elem_of_union, elem_of_singleton,
      elem_of_list_to_set. naive_solver.
  - rewrite list_to_set_app_L. simpl. set_solver.
Qed.

Lemma set_delete_members client set :
  list_to_set (C := gset Socket) (set_delete client set)
  = list_to_set set ∖ {[ client ]}.
Proof.
  unfold set_delete. apply set_eq. intros x.
  rewrite elem_of_difference, elem_of_singleton, !elem_of_list_to_set,
    list_elem_of_filter.
  naive_solver.
Qed.

Lemma subscribeClient_clients userId client st u :
  clients (subscribeClient userId client st) !! u
  = if decide (userId = u)
    then Some (set_add client (default [] (clients st !! userId)))
    else clients st !! u.
Proof.
  unfold subscribeClient.
  destruct (clients st !! userId) as [set|] eqn:Hset; simpl;
    case_decide as Hu; subst.
  - by rewrite lookup_alter_eq, Hset.
  - by rewrite lookup_alter_ne.
  - by rewrite lookup_alter_eq, lookup_insert_eq.
  - by rewrite lookup_alter_ne, lookup_insert_ne.
Qed.

Lemma unsubscribeClient_clients userId client st u :
  clients (unsubscribeClient userId client st) !! u
  = if decide (userId = u)
    then set ← clients st !! userId;
         if decide (set_delete client set = []) then None
         else Some (set_delete client set)
    else clients st !! u.
Proof.
  unfold unsubscribeClient.
  destruct (clients st !! userId) as [set|] eqn:Hset; simpl.
  - destruct (set_delete client set) as [|s rest] eqn:Hdel; simpl;
      case_decide as Hu; subst.
    + by rewrite lookup_delete_eq.
    + by rewrite lookup_delete_ne, lookup_insert_ne.
    + by rewrite lookup_insert_eq.
    + by rewrite lookup_insert_ne.
  - case_decide; by subst.
Qed.

Lemma live_connections_snoc u evs ev :
  live_connections u (evs ++ [ev])
  = match ev with
    | Subscribe u' client =>
        if decide (u' = u) then {[ client ]} ∪ live_connections u evs
        else live_connections u evs
    | Unsubscribe u' client =>
        if decide (u' = u) then live_connections u evs ∖ {[ client ]}
        else live_connections u evs
    end.
Proof. unfold live_connections. by rewrite foldl_app. Qed.

Lemma presence_run_snoc evs ev st :
  presence_run (evs ++ [ev]) st = presence_step ev (presence_run evs st).
Proof. unfold presence_run. by rewrite foldl_app. Qed.

Lemma registry_tracks_step st evs ev :
  registry_tracks st evs → registry_tracks (presence_step ev st) (evs ++ [ev]).
Proof.
  intros Hinv u. rewrite live_connections_snoc.
  destruct ev as [u' client|u' client]; unfold presence_step.
  - rewrite subscribeClient_clients. case_decide as Hu; [subst u'|apply Hinv].
    split; [apply set_add_nonempty|].
    rewrite set_add_members. specialize (Hinv u).
    destruct (clients st !! u) as [set|]; simpl.
    + by destruct Hinv as [_ ->].
    + by rewrite Hinv.
  - rewrite unsubscribeClient_clients. case_decide as Hu; [subst u'|apply Hinv].
    specialize (Hinv u).
    destruct (clients st !! u) as [set|]; simpl.
    + destruct Hinv as [_ <-]. case_decide as Hempty.
      * by rewrite <- set_delete_members, Hempty.
      * split; [done|]. apply set_delete_members.
    + rewrite Hinv. set_solver.
Qed.

Lemma registry_tracks_run evs st :
  clients st = ∅ → registry_tracks (presence_run evs st) evs.
Proof.
  intros Hempty. induction evs as [|ev evs IH] using rev_ind.
  - intros u. simpl. by rewrite Hempty, lookup_empty.
  - rewrite presence_run_snoc. by apply registry_tracks_step.
Qed.

(** C6: after any sequence of subscribe and unsubscribe events on an empty
    registry, a user is online iff the set of their live connections is
    not empty, and an entry of the registry is never empty: it lists
    exactly the live connections of its user. *)
Theorem isOnline_iff_live_connection convs stored evs u :
  let st := presence_run evs (initial convs stored) in
  (isOnline u st = true ↔ live_connections u evs ≠ ∅)
  ∧ (∀ set, clients st !! u = Some set →
            set ≠ [] ∧ list_to_set set = live_connections u evs).
Proof.
  intros st.
  pose proof (registry_tracks_run evs (initial convs stored) eq_refl u) as Hinv.
  fold st in Hinv. unfold isOnline.
  destruct (clients st !! u) as [set|] eqn:Hset.
  - destruct Hinv as [Hne Hlive]. split.
    + split; [|intros _; apply bool_decide_eq_true; eauto].
      intros _ Hempty. rewrite Hempty in Hlive. destruct set; [done|].
      set_solver.
    + intros set' [= <-]. done.
  - split; [|done]. split.
    + intros [? [=]]%bool_decide_eq_true.
    + done.
Qed.

(** C6 as stated fails: counted as a multiset, a connection subscribed
    twice and unsubscribed once is still there, but the registry holds a
    set and its entry is gone. *)
Lemma isOnline_not_multiset :
  ¬ (∀ evs u,
       isOnline u (presence_run evs (initial ∅ ∅)) = true
       ↔ live_multiset u evs ≠ ∅).
Proof.
  intros Hclaim.
  destruct (Hclaim subscribed_twice "bob") as [_ Hback].
  assert (Honline : isOnline "bob" (presence_run subscribed_twice (initial ∅ ∅))
                    = false) by (vm_compute; reflexivity).
  rewrite Hback in Honline; [discriminate|].
  intros Hempty.
  assert (Hcount : multiplicity bob_sock (live_multiset "bob" subscribed_twice) = 1).
  { vm_compute. reflexivity. }
  rewrite Hempty, multiplicity_empty in Hcount. discriminate.
Qed.

(** On sequences that subscribe no connection twice, counting occurrences
    and collecting a set agree, and the multiset reading holds as well. *)
Lemma live_multiset_snoc u evs ev :
  live_multiset u (evs ++ [ev])
  = match ev with
    | Subscribe u' client =>
        if decide (u' = u) then live_multiset u evs ⊎ {[+ client +]}
        else live_multiset u evs
    | Unsubscribe u' client =>
        if decide (u' = u) then live_multiset u evs ∖ {[+ client +]}
        else live_multiset u evs
    end.
Proof. unfold live_multiset. by rewrite foldl_app. Qed.

Lemma no_resubscribe_prefix u evs ev :
  no_resubscribe u (evs ++ [ev]) → no_resubscribe u evs.
Proof.
  intros Hno pre client post ->. apply (Hno pre client (post ++ [ev])).
  by rewrite <- app_assoc.
Qed.

Lemma live_multiset_counts u evs client :
  no_resubscribe u evs →
  multiplicity client (live_multiset u evs)
  = if decide (client ∈ live_connections u evs) then 1 else 0.
Proof.
  induction evs as [|ev evs IH] using rev_ind; intros Hno.
  - rewrite decide_False by set_solver. apply multiplicity_empty.
  - specialize (IH (no_resubscribe_prefix _ _ _ Hno)).
    rewrite live_multiset_snoc, live_connections_snoc.
    destruct ev as [u' c|u' c]; destruct (decide (u' = u)) as [->|Hu];
      try done.
    + assert (Hfresh : c ∉ live_connections u evs)
        by (apply (Hno evs c []); reflexivity).
      rewrite multiplicity_disj_union, multiplicity_singleton, IH.
      repeat case_decide; subst; set_solver by lia.
    + rewrite multiplicity_difference, multiplicity_singleton, IH.
      repeat case_decide; subst; set_solver by lia.
Qed.

Lemma isOnline_iff_multiset_without_resubscribe convs stored evs u :
  no_resubscribe u evs →
  isOnline u (presence_run evs (initial convs stored)) = true
  ↔ live_multiset u evs ≠ ∅.
Proof.
  intros Hno.
  pose proof (registry_tracks_run evs (initial convs stored) eq_refl u) as Hinv.
  assert (Hsame : live_multiset u evs ≠ ∅ ↔ live_connections u evs ≠ ∅).
  { split; intros Hne Hempty; apply Hne.
    - apply gmultiset_eq. intros c.
      rewrite (live_multiset_counts _ _ _ Hno), Hempty, multiplicity_empty.
      by rewrite decide_False by set_solver.
    - apply set_eq. intros c. split; [|set_solver]. intros Hin.
      pose proof (live_multiset_counts u evs c Hno) as Hc.
      rewrite decide_True, Hempty, multiplicity_empty in Hc by done. lia. }
  rewrite Hsame. unfold isOnline.
  destruct (clients _ !! u) as [set|] eqn:Hset.
  - destruct Hinv as [Hne Hlive]. split; [|intros _; apply bool_decide_eq_true; eauto].
    intros _ Hempty. rewrite Hempty in Hlive. destruct set; [done|]. set_solver.
  - split; [|done]. by intros [? [=]]%bool_decide_eq_true.
Qed.

End RegistryProperties.

(** ** Well-formed snapshots *)

Section WellFormed.

Implicit Types (st : State) (client : Socket) (callId userId : string).

Lemma routes_named_delete callId routes :
  routes_named routes → routes_named (delete callId routes).
Proof. apply map_Forall_delete. Qed.

Lemma routes_named_record callId userId socketId routes :
  socketId ≠ EmptyString → routes_named routes →
  routes_named (<[callId := <[userId := socketId]> (default ∅ (routes !! callId))]>
                  routes).
Proof.
  intros Hne Hroutes. apply map_Forall_insert_2; [|done].
  apply map_Forall_insert_2; [done|].
  destruct (routes !! callId) as [map|] eqn:Hmap; simpl.
  - exact (Hroutes callId map Hmap).
  - apply map_Forall_empty.
Qed.

Lemma routes_named_fresh callId userId socketId routes :
  socketId ≠ EmptyString → routes_named routes →
  routes_named (<[callId := {[ userId := socketId ]}]> routes).
Proof.
  intros Hne Hroutes. apply map_Forall_insert_2; [|done].
  by apply map_Forall_singleton.
Qed.

Lemma sockets_named_subscribe userId client st :
  sock_id client ≠ EmptyString → sockets_named (clients st) →
  sockets_named (clients (subscribeClient userId client st)).
Proof.
  intros Hne Hreg u set. rewrite subscribeClient_clients.
  case_decide as Hu; [|apply Hreg]. intros [= <-].
  assert (Hold : Forall (fun sock => sock_id sock ≠ EmptyString)
                        (default [] (clients st !! userId))).
  { destruct (clients st !! userId) as [old|] eqn:Hset; simpl; [|done].
    exact (Hreg userId old Hset). }
  unfold set_add. case_decide; [done|].
  apply Forall_app. split; [done|]. by apply Forall_singleton.
Qed.

Lemma sockets_named_unsubscribe userId client st :
  sockets_named (clients st) →
  sockets_named (clients (unsubscribeClient userId client st)).
Proof.
  intros Hreg u set. rewrite unsubscribeClient_clients.
  case_decide as Hu; [|apply Hreg].
  destruct (clients st !! userId) as [old|] eqn:Hset; simpl; [|done].
  case_decide; [done|]. intros [= <-].
  specialize (Hreg userId old Hset). simpl in Hreg.
  rewrite list.Forall_forall in Hreg. apply list.Forall_forall.
  intros sock Hin. apply list_elem_of_filter in Hin as [_ Hin]. by apply Hreg.
Qed.

Lemma subscribeClient_callSocketMap userId client st :
  callSocketMap (subscribeClient userId client st) = callSocketMap st.
Proof. unfold subscribeClient. by destruct (clients st !! userId). Qed.

Lemma unsubscribeClient_callSocketMap userId client st :
  callSocketMap (unsubscribeClient userId client st) = callSocketMap st.
Proof. unfold unsubscribeClient. repeat case_match; done. Qed.

Lemma forward_named event payload message client callId to st :
  sock_id client ≠ EmptyString → ids_nonempty st →
  ids_nonempty (state_of (forward event payload message client callId to st)).
Proof.
  intros Hne [Hreg Hroutes]. split; [by rewrite forward_clients|].
  unfold forward. repeat case_match; try done.
  unfold state_of; cbn [fst snd]. rewrite callSocketMap_recordRoute.
  by apply routes_named_record.
Qed.

(** Every operation that arrives on a named connection keeps the snapshot
    well formed. *)
Lemma ids_nonempty_step op st :
  op_named op → ids_nonempty st → ids_nonempty (step op st).
Proof.
  intros Hop Hwf.
  destruct op as [client|client|newId client conv type|now client c|now client c
                 |now client c|now c|client payload|client payload|client payload];
    unfold op_named in Hop; simpl in Hop; simpl.
  - destruct Hwf as [Hreg Hroutes]. unfold handleConnection.
    destruct (data_userId client) as [userId|]; [|done]. split.
    + by apply sockets_named_subscribe.
    + by rewrite subscribeClient_callSocketMap.
  - destruct Hwf as [Hreg Hroutes]. unfold handleDisconnect.
    destruct (resolved (data_userId client)) as [userId|]; [|done]. split.
    + by apply sockets_named_unsubscribe.
    + by rewrite unsubscribeClient_callSocketMap.
  - destruct Hwf as [Hreg Hroutes]. unfold initiateCall.
    repeat case_match; try done;
      (split; unfold state_of, setRingTimeout; cbn [fst snd call_id];
       autorewrite with state_proj; [done | by apply routes_named_fresh]).
  - destruct Hwf as [Hreg Hroutes]. unfold acceptCall.
    repeat case_match; try done;
      (split; unfold state_of; cbn [fst snd];
       autorewrite with state_proj; [done | by apply routes_named_record]).
  - destruct Hwf as [Hreg Hroutes]. unfold rejectCall.
    repeat case_match; try done.
    split; unfold state_of; cbn [fst snd]; autorewrite with state_proj;
      [done | by apply routes_named_delete].
  - destruct Hwf as [Hreg Hroutes]. unfold endCall.
    repeat case_match; try done.
    split; unfold state_of; cbn [fst snd]; autorewrite with state_proj;
      [done | by apply routes_named_delete].
  - destruct Hwf as [Hreg Hroutes]. unfold ringTimeout.
    destruct (ringTimeouts st !! c); simpl; [|done].
    destruct (calls st !! c); split; autorewrite with state_proj;
      try done; by apply routes_named_delete.
  - by apply forward_named.
  - by apply forward_named.
  - by apply forward_named.
Qed.

(** X29: every state a process reaches through operations on named connections
    is well formed. *)
Lemma ids_nonempty_run convs stored ops :
  Forall op_named ops → ids_nonempty (run ops (initial convs stored)).
Proof.
  assert (Hgen : ∀ st, Forall op_named ops → ids_nonempty st →
                       ids_nonempty (run ops st)).
  { induction ops as [|op ops IH]; intros st Hops Hwf; [done|].
    apply list.Forall_cons in Hops as [Hop Hops]. simpl. apply IH; [done|].
    by apply ids_nonempty_step. }
  intros Hops. apply Hgen; [done|].
  split; [apply map_Forall_empty | apply map_Forall_empty].
Qed.

End WellFormed.

(** ** The scenarios of the specification *)

(** The callee is offline: the call is created INITIATED, nobody is
    notified, and when the ring window elapses the call is MISSED and its
    call socket map entry is gone. *)
Example callee_offline_then_missed :
  call_status <$> calls bob_offline !! "c1" = Some CallStatus.INITIATED
  ∧ emitted (initiateCall "c1" alice_sock "conv1" VIDEO
               (run [Connect alice_sock] (initial conv1 ∅))) = []
  ∧ call_status <$> calls (step (RingTimeout 30%Z "c1") bob_offline) !! "c1"
    = Some CallStatus.MISSED
  ∧ callSocketMap (step (RingTimeout 30%Z "c1") bob_offline) !! "c1" = None.
Proof. repeat split; vm_compute; reflexivity. Qed.

(** The callee accepts within the ring window: the timer is cancelled, the
    call is ONGOING with a start timestamp, and the initiator is told who
    accepted. *)
Example accept_within_ring_window :
  ringTimeouts (state_of (acceptCall 5%Z bob_sock "c1" ringing)) !! "c1" = None
  ∧ (fun call => (call_status call, call_startedAt call))
      <$> calls (state_of (acceptCall 5%Z bob_sock "c1" ringing)) !! "c1"
    = Some (CallStatus.ONGOING, Some 5%Z)
  ∧ emitted (acceptCall 5%Z bob_sock "c1" ringing)
    = [mkEmit "s-alice" CALL_ACCEPT (PAccepted "c1" "bob")].
Proof. repeat split; vm_compute; reflexivity. Qed.

(** The recipient of a relayed message cannot be identified: the sender is
    told so and nothing else is emitted or changed. *)
Example recipient_not_found :
  forwardOffer alice_sock (mkRTCOfferDto "c9" "sdp" None) one_participant
  = (errorResponse "Recipient not found", one_participant,
     [mkEmit "s-alice" ERROR (PError "Recipient not found")]).
Proof. reflexivity. Qed.

(** * Further properties *)

(** ** The registry under connection events *)

Section RegistryMore.

Implicit Types (st : State) (userId u : string) (client : Socket)
               (set : list Socket).

Lemma set_clients_ext f g st :
  f (clients st) = g (clients st) → set_clients f st = set_clients g st.
Proof. unfold set_clients. by intros ->. Qed.

Lemma set_clients_same f st : f (clients st) = clients st → set_clients f st = st.
Proof. unfold set_clients. intros ->. by destruct st. Qed.

Lemma clients_set_clients f st : clients (set_clients f st) = f (clients st).
Proof. done. Qed.

Lemma set_clients_twice f g st :
  set_clients g (set_clients f st) = set_clients (fun m => g (f m)) st.
Proof. done. Qed.

Lemma subscribeClient_insert userId client st :
  subscribeClient userId client st
  = set_clients (insert userId (set_add client (default [] (clients st !! userId)))) st.
Proof.
  unfold subscribeClient.
  destruct (clients st !! userId) as [set|] eqn:Hset; simpl.
  - apply set_clients_ext. apply map_eq. intros k.
    destruct (decide (userId = k)) as [<-|Hne].
    + by rewrite lookup_alter_eq, lookup_insert_eq, Hset.
    + by rewrite lookup_alter_ne, lookup_insert_ne.
  - rewrite set_clients_twice. apply set_clients_ext. apply map_eq. intros k.
    destruct (decide (userId = k)) as [<-|Hne].
    + by rewrite lookup_alter_eq, !lookup_insert_eq.
    + by rewrite lookup_alter_ne, !lookup_insert_ne.
Qed.

Lemma unsubscribeClient_cases userId client st :
  unsubscribeClient userId client st
  = match clients st !! userId with
    | None => st
    | Some set =>
        if decide (set_delete client set = [])
        then set_clients (delete userId) st
        else set_clients (insert userId (set_delete client set)) st
    end.
Proof.
  unfold unsubscribeClient. destruct (clients st !! userId) as [set|]; [|done].
  simpl. destruct (set_delete client set) as [|s rest] eqn:Hdel; simpl.
  - rewrite set_clients_twice. apply set_clients_ext. apply delete_insert_eq.
  - done.
Qed.

Lemma elem_of_set_add client set : client ∈ set_add client set.
Proof. unfold set_add. case_decide; [done|]. apply elem_of_app. right. left. Qed.

Lemma set_add_member client set : client ∈ set → set_add client set = set.
Proof. intros Hin. unfold set_add. by rewrite decide_True. Qed.

Lemma set_delete_absent client set : client ∉ set → set_delete client set = set.
Proof.
  intros Hnin. unfold set_delete. induction set as [|s set IH]; [done|].
  apply not_elem_of_cons in Hnin as [Hne Hnin].
  rewrite filter_cons_True by done. by rewrite IH.
Qed.

Lemma set_delete_gone client set : client ∉ set_delete client set.
Proof. unfold set_delete. intros Hin%list_elem_of_filter. naive_solver. Qed.

Lemma set_delete_add client set :
  client ∉ set → set_delete client (set_add client set) = set.
Proof.
  intros Hnin. unfold set_add. rewrite decide_False by done.
  unfold set_delete. rewrite list.filter_app. fold (set_delete client set).
  rewrite (set_delete_absent _ _ Hnin).
  rewrite filter_cons_False by naive_solver. by rewrite filter_nil, app_nil_r.
Qed.

(** X1: subscribing a connection that is already subscribed changes
    nothing. *)
Theorem subscribeClient_idempotent userId client st :
  subscribeClient userId client (subscribeClient userId client st)
  = subscribeClient userId client st.
Proof.
  rewrite (subscribeClient_insert userId client (subscribeClient _ _ _)).
  rewrite (subscribeClient_insert userId client st).
  rewrite clients_set_clients, lookup_insert_eq. simpl.
  rewrite set_add_member by apply elem_of_set_add.
  rewrite set_clients_twice. apply set_clients_ext.
  apply insert_insert_eq.
Qed.

(** X2: unsubscribing a connection a second time changes nothing. *)
Theorem unsubscribeClient_idempotent userId client st :
  unsubscribeClient userId client (unsubscribeClient userId client st)
  = unsubscribeClient userId client st.
Proof.
  rewrite (unsubscribeClient_cases userId client st).
  destruct (clients st !! userId) as [set|] eqn:Hset.
  - case_decide as Hempty.
    + rewrite unsubscribeClient_cases, clients_set_clients.
      by rewrite lookup_delete_eq.
    + rewrite unsubscribeClient_cases, clients_set_clients, lookup_insert_eq.
      rewrite (set_delete_absent client (set_delete client set))
        by apply set_delete_gone.
      rewrite decide_False by done.
      rewrite set_clients_twice. apply set_clients_ext. apply insert_insert_eq.
  - rewrite unsubscribeClient_cases. by rewrite Hset.
Qed.

(** X3: a connection that connects and disconnects leaves the state as it
    found it, provided it was not subscribed before and the entry of its
    user, if there is one, is not empty. *)
Theorem subscribe_then_unsubscribe_restores userId client st :
  client ∉ default [] (clients st !! userId) →
  clients st !! userId ≠ Some [] →
  unsubscribeClient userId client (subscribeClient userId client st) = st.
Proof.
  intros Hfresh Hnonempty.
  rewrite unsubscribeClient_cases, subscribeClient_insert.
  rewrite clients_set_clients, lookup_insert_eq, (set_delete_add _ _ Hfresh).
  destruct (clients st !! userId) as [set|] eqn:Hset.
  - change (default [] (Some set)) with set.
    rewrite decide_False by congruence.
    rewrite set_clients_twice. apply set_clients_same.
    rewrite insert_insert_eq. by apply insert_id.
  - change (default [] None) with (@nil Socket).
    rewrite decide_True by done.
    rewrite set_clients_twice. apply set_clients_same.
    rewrite delete_insert_eq. by apply delete_id.
Qed.

Lemma subscribe_then_unsubscribe_restores_witness :
  unsubscribeClient "bob" (mkSocket "s-bob-2" (Some "bob"))
    (subscribeClient "bob" (mkSocket "s-bob-2" (Some "bob")) ringing)
  = ringing.
Proof.
  apply (subscribe_then_unsubscribe_restores "bob"
           (mkSocket "s-bob-2" (Some "bob")) ringing).
  - vm_compute. intros Hin. apply list_elem_of_In in Hin.
    destruct Hin as [Heq|[]]. discriminate Heq.
  - vm_compute. discriminate.
Defined.

(** X4: the two gateways write [subscribeClient] differently and the two
    versions do the same. *)
Theorem subscribeClient_variants_agree userId client st :
  ConversationGateway.subscribeClient userId client st
  = subscribeClient userId client st.
Proof.
  unfold ConversationGateway.subscribeClient, subscribeClient.
  destruct (clients st !! userId) as [set|] eqn:Hset; simpl.
  - apply set_clients_ext. apply map_eq. intros k.
    destruct (decide (userId = k)) as [<-|Hne].
    + by rewrite lookup_alter_eq, lookup_insert_eq, Hset.
    + by rewrite lookup_alter_ne, lookup_insert_ne.
  - rewrite set_clients_twice. apply set_clients_ext. apply map_eq. intros k.
    destruct (decide (userId = k)) as [<-|Hne].
    + by rewrite lookup_alter_eq, !lookup_insert_eq.
    + by rewrite lookup_alter_ne, !lookup_insert_ne.
Qed.

End RegistryMore.

(** ** The registry in reachable states *)

Section RegistryReachable.

Implicit Types (st : State) (userId u : string) (client : Socket)
               (set : list Socket).

Ltac handler_projection :=
  repeat case_match; try done;
  unfold state_of, setRingTimeout; cbn [fst snd];
  autorewrite with state_proj; done.

Lemma initiateCall_clients newId client conversationId type st :
  clients (state_of (initiateCall newId client conversationId type st)) = clients st.
Proof. unfold initiateCall. handler_projection. Qed.

Lemma acceptCall_clients now client callId st :
  clients (state_of (acceptCall now client callId st)) = clients st.
Proof. unfold acceptCall. handler_projection. Qed.

Lemma rejectCall_clients now client callId st :
  clients (state_of (rejectCall now client callId st)) = clients st.
Proof. unfold rejectCall. handler_projection. Qed.

Lemma endCall_clients now client callId st :
  clients (state_of (endCall now client callId st)) = clients st.
Proof. unfold endCall. handler_projection. Qed.

Lemma ringTimeout_clients now callId st st' :
  ringTimeout now callId st = Some st' → clients st' = clients st.
Proof.
  unfold ringTimeout. repeat case_match; try done; intros [= <-];
    autorewrite with state_proj; done.
Qed.

(** Only the connection events touch the registry. *)
Lemma step_clients op st :
  match op with
  | Connect _ | Disconnect _ => True
  | _ => clients (step op st) = clients st
  end.
Proof.
  destruct op; simpl; try done.
  - apply initiateCall_clients.
  - apply acceptCall_clients.
  - apply rejectCall_clients.
  - apply endCall_clients.
  - destruct (ringTimeout now callId st) as [st'|] eqn:Hfire; simpl; [|done].
    by eapply ringTimeout_clients.
  - apply forward_clients.
  - apply forward_clients.
  - apply forward_clients.
Qed.

Lemma registry_sound_subscribe userId client st :
  data_userId client = Some userId →
  registry_sound st → registry_sound (subscribeClient userId client st).
Proof.
  intros Hid Hreg u set. rewrite subscribeClient_clients.
  case_decide as Hu; [subst u|apply Hreg]. intros [= <-].
  assert (Hold : NoDup (default [] (clients st !! userId))
                 ∧ Forall (fun sock => data_userId sock = Some userId)
                          (default [] (clients st !! userId))).
  { destruct (clients st !! userId) as [old|] eqn:Hset; simpl.
    - by destruct (Hreg userId old Hset) as (_ & ? & ?).
    - split; [apply base.NoDup_nil_2 | done]. }
  destruct Hold as [Hnodup Hall].
  split; [apply set_add_nonempty|].
  unfold set_add. case_decide as Hin; [done|]. split.
  - apply list.NoDup_app. split_and!; [done | | apply list.NoDup_singleton].
    intros x Hx Hx'%list_elem_of_singleton. by subst.
  - apply Forall_app. split; [done|]. by apply Forall_singleton.
Qed.

Lemma registry_sound_unsubscribe userId client st :
  registry_sound st → registry_sound (unsubscribeClient userId client st).
Proof.
  intros Hreg u set. rewrite unsubscribeClient_clients.
  case_decide as Hu; [subst u|apply Hreg].
  destruct (clients st !! userId) as [old|] eqn:Hset; simpl; [|done].
  case_decide as Hempty; [done|]. intros [= <-].
  destruct (Hreg userId old Hset) as (_ & Hnodup & Hall).
  split; [done|]. unfold set_delete. split.
  - by apply list.NoDup_filter.
  - rewrite list.Forall_forall in Hall. apply list.Forall_forall.
    intros sock Hin%list_elem_of_filter. apply Hall, Hin.
Qed.

Lemma registry_sound_step op st : registry_sound st → registry_sound (step op st).
Proof.
  intros Hreg. pose proof (step_clients op st) as Hsame.
  destruct op; try (unfold registry_sound; by rewrite Hsame); simpl.
  - unfold handleConnection.
    destruct (data_userId client) as [userId|] eqn:Hid; [|done].
    by apply registry_sound_subscribe.
  - unfold handleDisconnect.
    destruct (resolved (data_userId client)) as [userId|]; [|done].
    by apply registry_sound_unsubscribe.
Qed.

Lemma registry_sound_run ops st : registry_sound st → registry_sound (run ops st).
Proof.
  revert st. induction ops as [|op ops IH]; intros st Hreg; [done|].
  simpl. apply IH. by apply registry_sound_step.
Qed.

Lemma registry_sound_reachable st : reachable st → registry_sound st.
Proof.
  intros (convs & ops & ->). apply registry_sound_run. apply map_Forall_empty.
Qed.

Lemma reachable_registry_sound_entry st u set :
  reachable st → clients st !! u = Some set →
  set ≠ [] ∧ NoDup set ∧ ∀ sock, sock ∈ set → data_userId sock = Some u.
Proof.
  intros Hreach Hset.
  destruct (registry_sound_reachable st Hreach u set Hset) as (Hne & Hnodup & Hall).
  split_and!; [done | done |].
  rewrite list.Forall_forall in Hall. exact Hall.
Qed.

(** X5: in every reachable state an entry of the registry is never empty,
    lists no connection twice, and holds only connections authenticated as
    the user of the entry. *)
Theorem reachable_registry_entries st u set :
  reachable st →
  clients st !! u = Some set →
  set ≠ [] ∧ NoDup set ∧ ∀ sock, sock ∈ set → data_userId sock = Some u.
Proof.
  intros (convs & ops & ->) Hset.
  assert (Hsound : registry_sound (run ops (initial convs ∅))).
  { apply registry_sound_run. apply map_Forall_empty. }
  destruct (Hsound u set Hset) as (Hne & Hnodup & Hall).
  split_and!; [done | done |].
  intros sock Hin. rewrite list.Forall_forall in Hall. by apply Hall.
Qed.

Lemma reachable_registry_entries_witness :
  [bob_sock] ≠ [] ∧ NoDup [bob_sock]
  ∧ ∀ sock, sock ∈ [bob_sock] → data_userId sock = Some "bob".
Proof.
  apply (reachable_registry_entries ringing "bob" [bob_sock]).
  - exists conv1. eexists. reflexivity.
  - vm_compute. reflexivity.
Defined.

(** X6: in every reachable state, [emitToUserFirstSocket] with nothing
    excluded reports a delivery exactly for the users that are online; for
    a user with no registry entry it emits nothing, and for a user with one
    it emits exactly one event, the given event with the given payload, to
    the first connection of the entry, which is authenticated as that
    user. *)
Theorem emitToUserFirstSocket_iff_online st u event payload :
  reachable st →
  (emitToUserFirstSocket u event payload None st).1 = isOnline u st
  ∧ match clients st !! u with
    | None => emitToUserFirstSocket u event payload None st = (false, [])
    | Some set =>
        ∃ sock rest,
          set = sock :: rest
          ∧ data_userId sock = Some u
          ∧ emitToUserFirstSocket u event payload None st
            = (true, [mkEmit (sock_id sock) event payload])
    end.
Proof.
  intros Hreach. unfold emitToUserFirstSocket, isOnline, getActiveSocketIdsForUser.
  destruct (clients st !! u) as [set|] eqn:Hset.
  - destruct (reachable_registry_sound_entry st u set Hreach Hset)
      as (Hne & _ & Hall).
    destruct set as [|sock rest]; [done|].
    rewrite filter_cons_True by done. simpl. split.
    + done.
    + exists sock, rest. split_and!; [done| |done].
      apply Hall. left.
  - done.
Qed.

Lemma emitToUserFirstSocket_iff_online_witness :
  isOnline "bob" ringing = true
  ∧ emitToUserFirstSocket "bob" CALL_END (PEnded "c1") None ringing
    = (true, [mkEmit "s-bob" CALL_END (PEnded "c1")]).
Proof.
  assert (Hreach : reachable ringing).
  { exists conv1. eexists. reflexivity. }
  destruct (emitToUserFirstSocket_iff_online ringing "bob" CALL_END (PEnded "c1")
              Hreach) as [Honline Hemit].
  assert (Hset : clients ringing !! "bob" = Some [bob_sock])
    by (vm_compute; reflexivity).
  rewrite Hset in Hemit. destruct Hemit as (sock & rest & Hcons & _ & Hemit).
  injection Hcons as <- <-.
  split; [|exact Hemit].
  rewrite <- Honline, Hemit. reflexivity.
Defined.

End RegistryReachable.

(** ** More on the router *)

Section RouterMore.

Implicit Types (st : State) (callId recipient userId : string)
               (hint exclude : option string).

(** Where an answer of the router comes from. *)
Lemma findTarget_Some_cases callId recipient hint exclude st s :
  findTargetSocketForRecipient callId recipient hint exclude st = Some s →
  (recordedRoute callId recipient st = Some s ∧ s ≠ EmptyString ∧ Some s ≠ exclude)
  ∨ s ∈ getActiveSocketIdsForUser recipient exclude st.
Proof.
  unfold findTargetSocketForRecipient, recordedRoute.
  assert (Htail :
    match
      match callSocketMap st !! callId with
      | Some map =>
          match resolved (map !! recipient) with
          | Some rec => if decide (Some rec ≠ exclude) then Some rec else None
          | None => None
          end
      | None => None
      end
    with
    | Some rec => Some rec
    | None => head (getActiveSocketIdsForUser recipient exclude st)
    end = Some s →
    (callSocketMap st !! callId ≫= (fun map => map !! recipient) = Some s
     ∧ s ≠ EmptyString ∧ Some s ≠ exclude)
    ∨ s ∈ getActiveSocketIdsForUser recipient exclude st).
  { destruct (callSocketMap st !! callId) as [map|]; simpl.
    - destruct (resolved (map !! recipient)) as [rec|] eqn:Hrec.
      + apply resolved_Some in Hrec as [Hrec Hne].
        case_decide; [intros [= <-]; by left|].
        intros Hhd%head_elem_of. by right.
      + intros Hhd%head_elem_of. by right.
    - intros Hhd%head_elem_of. by right. }
  destruct (resolved hint) as [to|]; [|exact Htail].
  case_decide as Hin; [|exact Htail]. intros [= <-]. by right.
Qed.

(** X7: an answer of the router is the route recorded for the recipient in
    this call or the identifier of a connection registered for the
    recipient; in a reachable state that connection is authenticated as the
    recipient. *)
Theorem findTarget_answer_belongs_to_recipient callId recipient hint exclude st s :
  reachable st →
  findTargetSocketForRecipient callId recipient hint exclude st = Some s →
  recordedRoute callId recipient st = Some s
  ∨ ∃ set sock, clients st !! recipient = Some set ∧ sock ∈ set
                ∧ sock_id sock = s ∧ data_userId sock = Some recipient.
Proof.
  intros Hreach [[Hrec _]|Hactive]%findTarget_Some_cases; [by left|right].
  apply elem_of_active in Hactive as (set & sock & Hset & Hin & Hid & _).
  exists set, sock. split_and!; [done | done | done |].
  destruct (reachable_registry_sound_entry st recipient set Hreach Hset)
    as (_ & _ & Hall).
  by apply Hall.
Qed.

Lemma findTarget_answer_belongs_to_recipient_witness :
  recordedRoute "c1" "bob" ringing = Some "s-bob"
  ∨ ∃ set sock, clients ringing !! "bob" = Some set ∧ sock ∈ set
                ∧ sock_id sock = "s-bob" ∧ data_userId sock = Some "bob".
Proof.
  apply (findTarget_answer_belongs_to_recipient "c1" "bob" (Some "s-alice") None
           ringing "s-bob").
  - exists conv1. eexists. reflexivity.
  - vm_compute. reflexivity.
Defined.

(** A hint that is not an active connection of the recipient, the
    excluded one left out, has no effect on the answer. *)
Theorem findTarget_ignores_foreign_hint callId recipient h exclude st :
  h ∉ getActiveSocketIdsForUser recipient exclude st →
  findTargetSocketForRecipient callId recipient (Some h) exclude st
  = findTargetSocketForRecipient callId recipient None exclude st.
Proof.
  intros Hnin. unfold findTargetSocketForRecipient.
  destruct (resolved (Some h)) as [to|] eqn:Hto; [|done].
  apply resolved_Some in Hto as [[= <-] _]. by rewrite decide_False.
Qed.

Lemma findTarget_ignores_foreign_hint_witness :
  findTargetSocketForRecipient "c1" "bob" (Some "s-alice") None ringing
  = findTargetSocketForRecipient "c1" "bob" None None ringing.
Proof.
  apply (findTarget_ignores_foreign_hint "c1" "bob" "s-alice" None ringing).
  vm_compute. intros Hin. apply list_elem_of_In in Hin.
  destruct Hin as [Heq|[]]. discriminate Heq.
Defined.

(** X8: the router finds nothing exactly when the recipient has no active
    connection besides the excluded one and the recorded route, if there is
    one, is empty or is the excluded connection. *)
Theorem findTarget_not_found_iff callId recipient hint exclude st :
  findTargetSocketForRecipient callId recipient hint exclude st = None
  ↔ getActiveSocketIdsForUser recipient exclude st = []
    ∧ ∀ rec, recordedRoute callId recipient st = Some rec →
             rec = EmptyString ∨ Some rec = exclude.
Proof.
  unfold findTargetSocketForRecipient, recordedRoute. split.
  - intros Hnone.
    destruct (getActiveSocketIdsForUser recipient exclude st) as [|first ids] eqn:Ha.
    + split; [done|]. intros rec Hrec.
      destruct (resolved hint) as [to|];
        [rewrite decide_False in Hnone by apply not_elem_of_nil|];
        destruct (callSocketMap st !! callId) as [map|]; simpl in Hrec; try done;
        rewrite Hrec in Hnone;
        (destruct (decide (rec = EmptyString)) as [|Hne]; [by left|]);
        rewrite (resolved_nonempty _ Hne) in Hnone;
        (destruct (decide (Some rec ≠ exclude)) as [|Heq];
           [done | right; by apply dec_stable]).
    + exfalso.
      destruct (resolved hint) as [to|]; [case_decide; [done|]|];
        repeat case_match; simplify_eq.
  - intros [Hactive Hrec]. rewrite Hactive.
    assert (Hroute :
      match callSocketMap st !! callId with
      | Some map =>
          match resolved (map !! recipient) with
          | Some rec => if decide (Some rec ≠ exclude) then Some rec else None
          | None => None
          end
      | None => None
      end = None).
    { destruct (callSocketMap st !! callId) as [map|]; simpl in Hrec; [|done].
      destruct (resolved (map !! recipient)) as [rec|] eqn:Hres; [|done].
      apply resolved_Some in Hres as [Hres Hne].
      destruct (Hrec rec Hres) as [?|Heq]; [done|]. by rewrite decide_False by auto. }
    rewrite Hroute.
    destruct (resolved hint) as [to|]; [|done].
    by rewrite decide_False by apply not_elem_of_nil.
Qed.

Lemma recordedRoute_recordRoute callId userId socketId st :
  recordedRoute callId userId (recordRoute callId userId socketId st) = Some socketId.
Proof.
  unfold recordedRoute. rewrite callSocketMap_recordRoute, lookup_insert_eq. simpl.
  apply lookup_insert_eq.
Qed.

Lemma recordedRoute_recordRoute_other callId userId socketId callId' userId' st :
  (callId', userId') ≠ (callId, userId) →
  recordedRoute callId' userId' (recordRoute callId userId socketId st)
  = recordedRoute callId' userId' st.
Proof.
  intros Hne. unfold recordedRoute. rewrite callSocketMap_recordRoute.
  destruct (decide (callId = callId')) as [<-|Hc].
  - rewrite lookup_insert_eq. simpl.
    rewrite lookup_insert_ne by congruence.
    destruct (callSocketMap st !! callId); simpl; [done | apply lookup_empty].
  - by rewrite lookup_insert_ne.
Qed.

(** X9: once a connection is recorded for a participant of a call, the
    router answers with it whenever it is not the excluded connection and no
    active hint overrides it, whatever the registry holds; the routes of
    other participants and other calls stay as they were. *)
Theorem recorded_route_is_resolved callId userId socketId hint exclude st :
  socketId ≠ EmptyString →
  Some socketId ≠ exclude →
  (∀ h, hint = Some h →
        h ∉ getActiveSocketIdsForUser userId exclude st) →
  findTargetSocketForRecipient callId userId hint exclude
    (recordRoute callId userId socketId st) = Some socketId
  ∧ ∀ callId' userId',
      (callId', userId') ≠ (callId, userId) →
      recordedRoute callId' userId' (recordRoute callId userId socketId st)
      = recordedRoute callId' userId' st.
Proof.
  intros Hne Hex Hhint. split; [|intros; by apply recordedRoute_recordRoute_other].
  assert (Hactive : getActiveSocketIdsForUser userId exclude
                      (recordRoute callId userId socketId st)
                    = getActiveSocketIdsForUser userId exclude st).
  { unfold getActiveSocketIdsForUser. by rewrite clients_recordRoute. }
  pose proof (recordedRoute_recordRoute callId userId socketId st) as Hrec.
  unfold recordedRoute in Hrec.
  unfold findTargetSocketForRecipient. rewrite Hactive.
  destruct (callSocketMap (recordRoute callId userId socketId st) !! callId)
    as [map|]; simpl in Hrec; [|done].
  rewrite Hrec, (resolved_nonempty _ Hne), decide_True by done.
  destruct (resolved hint) as [to|] eqn:Hto; [|done].
  apply resolved_Some in Hto as [Hto _].
  by rewrite decide_False by (by apply Hhint).
Qed.

Lemma recorded_route_is_resolved_witness :
  findTargetSocketForRecipient "c1" "bob" None (Some "s-alice")
    (recordRoute "c1" "bob" "s-bob-9" ringing) = Some "s-bob-9".
Proof.
  apply (recorded_route_is_resolved "c1" "bob" "s-bob-9" None (Some "s-alice")
           ringing); [discriminate | discriminate | discriminate].
Defined.

End RouterMore.

(** ** What the handlers do to the state *)

Section Effects.

Implicit Types (st : State) (callId userId newId : string) (client : Socket)
               (call : Call) (now : Time).

Lemma state_eq st st' :
  conversations st = conversations st' → calls st = calls st' →
  clients st = clients st' → callSocketMap st = callSocketMap st' →
  ringTimeouts st = ringTimeouts st' → st = st'.
Proof. destruct st, st'; simpl; congruence. Qed.

Lemma conversations_set_calls f st : conversations (set_calls f st) = conversations st.
Proof. done. Qed.

Lemma conversations_set_callSocketMap f st :
  conversations (set_callSocketMap f st) = conversations st.
Proof. done. Qed.

Lemma conversations_set_ringTimeouts f st :
  conversations (set_ringTimeouts f st) = conversations st.
Proof. done. Qed.

Lemma conversations_clearRingTimeout callId st :
  conversations (clearRingTimeout callId st) = conversations st.
Proof. unfold clearRingTimeout. by destruct (ringTimeouts st !! callId). Qed.

Lemma conversations_recordRoute callId userId socketId st :
  conversations (recordRoute callId userId socketId st) = conversations st.
Proof. unfold recordRoute. by destruct (callSocketMap st !! callId). Qed.

End Effects.

#[export] Hint Rewrite
  conversations_set_calls conversations_set_callSocketMap
  conversations_set_ringTimeouts conversations_clearRingTimeout
  conversations_recordRoute : state_proj.

Section HandlerEffects.

Implicit Types (st : State) (callId userId newId : string) (client : Socket)
               (call : Call) (now : Time).

Lemma find_conversation_participant f (participants : list ConversationParticipant) p :
  List.find f participants = Some p → p ∈ participants ∧ f p = true.
Proof.
  intros Hfind. apply List.find_some in Hfind as [Hin Hf].
  split; [by apply list_elem_of_In | done].
Qed.

(** What a successful [initiateCall] found and did. *)
(** The element [find] returns is the first that passes the test. *)
Lemma find_first {A} (f : A → bool) (l : list A) (x : A) :
  List.find f l = Some x →
  ∃ before after,
    l = before ++ x :: after ∧ f x = true ∧ Forall (fun y => f y = false) before.
Proof.
  induction l as [|y l IH]; simpl; [done|].
  destruct (f y) eqn:Hy.
  - intros [= ->]. exists [], l. split_and!; [done | done | constructor].
  - intros (before & after & -> & Hx & Hall)%IH.
    exists (y :: before), after. split_and!; [done | done | by constructor].
Qed.

Lemma initiateCall_effect newId client conversationId type st m :
  response (initiateCall newId client conversationId type st) = successResponse m →
  ∃ callerId targetId participants,
    resolved (data_userId client) = Some callerId
    ∧ conversations st !! conversationId = Some participants
    ∧ mkConversationParticipant (Some callerId) ADMIN_GROUP ∈ participants
    ∧ mkConversationParticipant (Some targetId) USER ∈ participants
    ∧ targetId ≠ EmptyString
    ∧ calls st !! newId = None
    ∧ state_of (initiateCall newId client conversationId type st)
      = mkState (conversations st)
          (<[newId := created_call newId conversationId callerId targetId type]>
             (calls st))
          (clients st)
          (<[newId := {[ callerId := sock_id client ]}]> (callSocketMap st))
          (<[newId := 30000%Z]> (ringTimeouts st))
    ∧ emitted (initiateCall newId client conversationId type st)
      = match resolved
                (findTargetSocketForRecipient newId targetId None None
                   (set_callSocketMap (insert newId {[ callerId := sock_id client ]})
                      st)) with
        | Some targetSocket =>
            [mkEmit targetSocket CALL_INCOMING
               (PIncoming (created_call newId conversationId callerId targetId type)
                          callerId)]
        | None => []
        end
    ∧ callee_of participants targetId.
Proof.
  unfold initiateCall.
  destruct (resolved (data_userId client)) as [callerId|] eqn:Hid; [|done].
  destruct (conversations st !! conversationId) as [participants|] eqn:Hconv; [|done].
  destruct (List.find _ participants) as [admin|] eqn:Hadmin; [|done].
  destruct (List.find (fun p => bool_decide (conv_type p = USER) && _) participants)
    as [target|] eqn:Htarget; [|done].
  simpl.
  destruct (conv_userId target) as [targetId|] eqn:Htid; [|done].
  destruct (calls st !! newId) as [old|] eqn:Hnew; [done|].
  intros _. exists callerId, targetId, participants.
  pose proof (find_first _ _ _ Htarget) as (before & after & Hsplit & _ & Hbefore).
  apply find_conversation_participant in Hadmin as [Hadmin_in Hadmin].
  apply find_conversation_participant in Htarget as [Htarget_in Htarget].
  apply andb_prop in Hadmin as [Hau%bool_decide_eq_true Hat%bool_decide_eq_true].
  apply andb_prop in Htarget as [Htt%bool_decide_eq_true Htu%bool_decide_eq_true].
  assert (Hadmin_eq : admin = mkConversationParticipant (Some callerId) ADMIN_GROUP).
  { destruct admin as [u t]; simpl in *. by subst. }
  assert (Htarget_eq : target = mkConversationParticipant (Some targetId) USER).
  { destruct target as [u t]; simpl in *. by subst. }
  assert (Hne : targetId ≠ EmptyString).
  { rewrite Htid in Htu. destruct Htu as [s Hs].
    by apply resolved_Some in Hs as [[= ->] Hne]. }
  subst admin target.
  split_and!; [done | done | done | done | done | done | | |].
  - unfold state_of, setRingTimeout; cbn [fst snd call_id].
    apply state_eq; cbn [conversations calls clients callSocketMap ringTimeouts];
    autorewrite with state_proj; try done.
    apply insert_delete_eq.
  - reflexivity.
  - exists before, after. split_and!; [done | done |].
    eapply list.Forall_impl; [exact Hbefore|]. intros p Hp Htype. simpl in Hp.
    rewrite bool_decide_eq_true_2 in Hp by done. simpl in Hp.
    apply bool_decide_eq_false in Hp.
    destruct (resolved (conv_userId p)); [|done]. destruct Hp. eauto.
Qed.

Lemma initiateCall_success newId client conversationId type st m :
  response (initiateCall newId client conversationId type st) = successResponse m →
  ∃ callerId targetId participants,
    resolved (data_userId client) = Some callerId
    ∧ conversations st !! conversationId = Some participants
    ∧ mkConversationParticipant (Some callerId) ADMIN_GROUP ∈ participants
    ∧ mkConversationParticipant (Some targetId) USER ∈ participants
    ∧ targetId ≠ EmptyString
    ∧ calls st !! newId = None
    ∧ state_of (initiateCall newId client conversationId type st)
      = mkState (conversations st)
          (<[newId := created_call newId conversationId callerId targetId type]>
             (calls st))
          (clients st)
          (<[newId := {[ callerId := sock_id client ]}]> (callSocketMap st))
          (<[newId := 30000%Z]> (ringTimeouts st))
    ∧ emitted (initiateCall newId client conversationId type st)
      = match resolved
                (findTargetSocketForRecipient newId targetId None None
                   (set_callSocketMap (insert newId {[ callerId := sock_id client ]})
                      st)) with
        | Some targetSocket =>
            [mkEmit targetSocket CALL_INCOMING
               (PIncoming (created_call newId conversationId callerId targetId type)
                          callerId)]
        | None => []
        end.
Proof.
  intros Hok.
  destruct (initiateCall_effect _ _ _ _ _ _ Hok)
    as (callerId & targetId & ps & H1 & H2 & H3 & H4 & H5 & H6 & H7 & H8 & _).
  exists callerId, targetId, ps. done.
Qed.

Lemma acceptCall_success now client callId st userId call :
  resolved (data_userId client) = Some userId →
  calls st !! callId = Some call →
  acceptCall now client callId st
  = (successResponse "Call accepted",
     mkState (conversations st)
       (<[callId := accepted now userId call]> (calls st))
       (clients st)
       (<[callId := <[userId := sock_id client]>
                      (default ∅ (callSocketMap st !! callId))]> (callSocketMap st))
       (delete callId (ringTimeouts st)),
     emitted (acceptCall now client callId st)).
Proof.
  intros Hid Hcall.
  pose proof (acceptCall_calls now client callId st call userId Hid Hcall) as Hcalls.
  unfold acceptCall in *. rewrite Hid, Hcall in *.
  unfold emitted; cbn [snd]. f_equal. f_equal.
  unfold state_of in Hcalls; cbn [fst snd] in Hcalls.
  apply state_eq; cbn [conversations calls clients callSocketMap ringTimeouts];
    [| exact Hcalls | | |];
    case_decide; autorewrite with state_proj; done.
Qed.

Lemma rejectCall_success now client callId st userId call :
  resolved (data_userId client) = Some userId →
  calls st !! callId = Some call →
  rejectCall now client callId st
  = (successResponse "Call rejected",
     mkState (conversations st)
       (<[callId := rejected now userId call]> (calls st))
       (clients st)
       (delete callId (callSocketMap st))
       (delete callId (ringTimeouts st)),
     emitted (rejectCall now client callId st)).
Proof.
  intros Hid Hcall. unfold rejectCall. rewrite Hid, Hcall.
  unfold emitted; cbn [snd]. f_equal. f_equal.
  apply state_eq; cbn [conversations calls clients callSocketMap ringTimeouts];
    autorewrite with state_proj; try done.
  apply map_eq. intros k. destruct (decide (callId = k)) as [<-|Hne].
  - by rewrite !lookup_alter_eq, lookup_insert_eq, Hcall.
  - by rewrite !lookup_alter_ne, lookup_insert_ne.
Qed.

Lemma endCall_success now client callId st call :
  calls st !! callId = Some call →
  endCall now client callId st
  = (successResponse "Call ended",
     mkState (conversations st)
       (<[callId := call_finished CallStatus.ENDED now call]> (calls st))
       (clients st)
       (delete callId (callSocketMap st))
       (delete callId (ringTimeouts st)),
     emitted (endCall now client callId st)).
Proof.
  intros Hcall. unfold endCall. rewrite Hcall.
  unfold emitted; cbn [snd]. f_equal. f_equal.
  apply state_eq; cbn [conversations calls clients callSocketMap ringTimeouts];
    autorewrite with state_proj; done.
Qed.

Lemma ringTimeout_fires now callId st :
  ringTimeout now callId st
  = if decide (is_Some (ringTimeouts st !! callId))
    then Some match calls st !! callId with
              | Some call =>
                  mkState (conversations st)
                    (<[callId := call_finished CallStatus.MISSED now call]> (calls st))
                    (clients st)
                    (delete callId (callSocketMap st))
                    (delete callId (ringTimeouts st))
              | None =>
                  mkState (conversations st) (calls st) (clients st)
                    (callSocketMap st) (delete callId (ringTimeouts st))
              end
    else None.
Proof.
  unfold ringTimeout. destruct (ringTimeouts st !! callId) as [ms|] eqn:Ht.
  - rewrite decide_True by eauto. f_equal.
    destruct (calls st !! callId) as [call|] eqn:Hcall;
      apply state_eq; cbn [conversations calls clients callSocketMap ringTimeouts];
    autorewrite with state_proj; try done.
    apply map_eq. intros k. destruct (decide (callId = k)) as [<-|Hne].
    + by rewrite lookup_alter_eq, lookup_insert_eq, Hcall.
    + by rewrite lookup_alter_ne, lookup_insert_ne.
  - rewrite decide_False; [done|]. by intros [? ?].
Qed.

Lemma forward_effect event payload message client callId to st :
  state_of (forward event payload message client callId to st) = st
  ∨ ∃ from call,
      resolved (data_userId client) = Some from
      ∧ calls st !! callId = Some call
      ∧ state_of (forward event payload message client callId to st)
        = recordRoute (call_id call) from (sock_id client) st.
Proof.
  unfold forward. repeat case_match; try (by left).
  right. eauto.
Qed.

(** A handler that answers with an error has changed nothing. *)
Lemma handler_error_state op st out m :
  handle op st = Some out → response out = errorResponse m → state_of out = st.
Proof.
  assert (Hfwd : ∀ event payload message client callId to,
    response (forward event payload message client callId to st) = errorResponse m →
    state_of (forward event payload message client callId to st) = st).
  { intros event payload message client callId to. unfold forward.
    repeat case_match; done. }
  destruct op; simpl; try done; intros [= <-];
    [ unfold initiateCall | unfold acceptCall | unfold rejectCall | unfold endCall
    | apply Hfwd | apply Hfwd | apply Hfwd ];
    repeat case_match; done.
Qed.

End HandlerEffects.

(** ** What a terminal status can still become *)

Section Terminal.

(** A Reject or End that goes through, and the timer callback of a pending
    timer, write their status over the status of the call, whatever it
    was. *)
Lemma step_terminating_status op st callId call :
  calls st !! callId = Some call →
  terminates op callId →
  takes_effect op st = true →
  call_status <$> calls (step op st) !! callId
  = Some match op with
         | End_ _ _ _ => CallStatus.ENDED
         | _ => CallStatus.MISSED
         end.
Proof.
  intros Hcall Hop Heff.
  destruct op as [client|client|newId client conv type|now client c|now client c
                 |now client c|now c|client payload|client payload|client payload];
    simpl in Hop; try done; subst c; simpl in Heff |- *.
  - destruct (resolved (data_userId client)) as [userId|] eqn:Hid.
    + rewrite (rejectCall_success now client callId st userId call Hid Hcall).
      unfold state_of; cbn [fst snd calls]. by rewrite lookup_insert_eq.
    + unfold rejectCall in Heff. by rewrite Hid in Heff.
  - rewrite (endCall_success now client callId st call Hcall).
    unfold state_of; cbn [fst snd calls]. by rewrite lookup_insert_eq.
  - apply andb_true_iff in Heff as [Ht _]. apply bool_decide_eq_true in Ht.
    rewrite ringTimeout_fires, decide_True by done. rewrite Hcall.
    simpl. by rewrite lookup_insert_eq.
Qed.

(** A Reject that is refused and a timer callback with no pending timer
    leave every call as it was; an End on a call that exists is never
    refused. *)
Lemma step_without_effect_calls op st callId call :
  calls st !! callId = Some call →
  terminates op callId →
  takes_effect op st = false →
  calls (step op st) = calls st.
Proof.
  intros Hcall Hop Heff.
  destruct op as [client|client|newId client conv type|now client c|now client c
                 |now client c|now c|client payload|client payload|client payload];
    simpl in Hop; try done; subst c; simpl in Heff |- *.
  - destruct (resolved (data_userId client)) as [userId|] eqn:Hid.
    + by rewrite (rejectCall_success now client callId st userId call Hid Hcall)
        in Heff.
    + unfold rejectCall. by rewrite Hid.
  - by rewrite (endCall_success now client callId st call Hcall) in Heff.
  - rewrite ringTimeout_fires.
    destruct (decide (is_Some (ringTimeouts st !! callId))) as [Ht|Ht]; [|done].
    rewrite bool_decide_eq_true_2 in Heff by done.
    rewrite bool_decide_eq_true_2 in Heff by (by rewrite Hcall). done.
Qed.

Lemma terminates_dec op callId : {terminates op callId} + {¬ terminates op callId}.
Proof.
  destruct op; simpl; try (right; tauto); apply (decide (_ = _)).
Qed.

(** C1: once the status of a call is terminal it stays terminal under
    every operation.  A Reject or End that goes through and the timer
    callback of a pending timer overwrite it, Reject and the timer with
    MISSED and End with ENDED; every other operation, a Reject that is
    refused and a timer callback with no pending timer leave it as it
    was. *)
Theorem terminal_status_stays_terminal op st callId call :
  calls st !! callId = Some call →
  CallStatus.terminal (call_status call) = true →
  ∃ call',
    calls (step op st) !! callId = Some call'
    ∧ CallStatus.terminal (call_status call') = true
    ∧ (terminates op callId → takes_effect op st = true →
       call_status call'
       = match op with
         | End_ _ _ _ => CallStatus.ENDED
         | _ => CallStatus.MISSED
         end)
    ∧ (¬ (terminates op callId ∧ takes_effect op st = true) →
       call_status call' = call_status call).
Proof.
  intros Hcall Hterm.
  destruct (step_status op st callId call Hcall) as (call' & Hcall' & Hstep).
  exists call'. split; [done|].
  destruct (terminates_dec op callId) as [Hop|Hop].
  - destruct (takes_effect op st) eqn:Heff.
    + pose proof (step_terminating_status op st callId call Hcall Hop Heff) as Hw.
      rewrite Hcall' in Hw. injection Hw as Hw.
      split; [|split].
      * rewrite Hw. by destruct op.
      * done.
      * intros Hno. exfalso. by apply Hno.
    + pose proof (step_without_effect_calls op st callId call Hcall Hop Heff) as Hsame.
      rewrite Hsame, Hcall in Hcall'. injection Hcall' as <-.
      split; [done|]. split; [done|]. done.
  - assert (Hs : call_status call' = call_status call).
    { destruct Hstep as [Hs _|now client -> Hi _|now client -> Hs|now client -> Hs
                        |now -> Hs];
        [done | by rewrite Hi in Hterm | by destruct Hop..]. }
    split; [by rewrite Hs|]. split; [done|]. done.
Qed.

End Terminal.

Lemma terminal_status_stays_terminal_witness :
  ∃ call',
    calls (step (End_ 40%Z alice_sock "c1") timed_out) !! "c1" = Some call'
    ∧ call_status <$> calls timed_out !! "c1" = Some CallStatus.MISSED
    ∧ CallStatus.terminal (call_status call') = true
    ∧ call_status call' = CallStatus.ENDED.
Proof.
  destruct (calls timed_out !! "c1") as [call|] eqn:Hcall;
    [|vm_compute in Hcall; discriminate].
  assert (Hstatus : call_status call = CallStatus.MISSED).
  { vm_compute in Hcall. injection Hcall as <-. reflexivity. }
  assert (Hterm : CallStatus.terminal (call_status call) = true).
  { rewrite Hstatus. reflexivity. }
  destruct (terminal_status_stays_terminal (End_ 40%Z alice_sock "c1") timed_out
              "c1" call Hcall Hterm) as (call' & Hc & Ht & Hw & _).
  exists call'. split; [exact Hc|]. split; [simpl; by rewrite Hstatus|].
  split; [exact Ht|].
  apply Hw; [reflexivity|]. vm_compute. reflexivity.
Defined.

(** ** More on the call state machine *)

Section MachineMore.

Implicit Types (st : State) (callId userId newId : string) (client : Socket)
               (call : Call) (now : Time).

Lemma subscribeClient_machine userId client st :
  calls (subscribeClient userId client st) = calls st
  ∧ ringTimeouts (subscribeClient userId client st) = ringTimeouts st
  ∧ callSocketMap (subscribeClient userId client st) = callSocketMap st.
Proof. unfold subscribeClient. by destruct (clients st !! userId). Qed.

Lemma unsubscribeClient_machine userId client st :
  calls (unsubscribeClient userId client st) = calls st
  ∧ ringTimeouts (unsubscribeClient userId client st) = ringTimeouts st
  ∧ callSocketMap (unsubscribeClient userId client st) = callSocketMap st.
Proof. unfold unsubscribeClient. repeat case_match; done. Qed.

Lemma forward_machine op event payload message client callId to st :
  machine_step op st (state_of (forward event payload message client callId to st)).
Proof.
  destruct (forward_effect event payload message client callId to st)
    as [->|(from & call & _ & Hcall & ->)].
  - by apply machine_idle.
  - eapply machine_relay; [exact Hcall | ..];
      autorewrite with state_proj; done.
Qed.

(** Every operation takes one of the shapes of [machine_step]. *)
Lemma step_machine op st : machine_step op st (step op st).
Proof.
  destruct op as [client|client|newId client conv type|now client c|now client c
                 |now client c|now c|client payload|client payload|client payload];
    simpl.
  - unfold handleConnection. destruct (data_userId client) as [userId|].
    + destruct (subscribeClient_machine userId client st) as (? & ? & ?).
      by apply machine_idle.
    + by apply machine_idle.
  - unfold handleDisconnect. destruct (resolved (data_userId client)) as [userId|].
    + destruct (unsubscribeClient_machine userId client st) as (? & ? & ?).
      by apply machine_idle.
    + by apply machine_idle.
  - destruct (response (initiateCall newId client conv type st)) as [m|m] eqn:Hresp.
    + destruct (initiateCall_success _ _ _ _ _ _ Hresp)
        as (callerId & targetId & ps & Hid & _ & _ & _ & Htne & Hnew & -> & _).
      apply resolved_Some in Hid as [_ Hcne].
      by apply (machine_create _ _ _ newId client conv callerId targetId type).
    + assert (Hsame : state_of (initiateCall newId client conv type st) = st).
      { eapply (handler_error_state (Initiate newId client conv type)); done. }
      rewrite Hsame. by apply machine_idle.
  - destruct (resolved (data_userId client)) as [userId|] eqn:Hid;
      [destruct (calls st !! c) as [call|] eqn:Hcall|].
    + rewrite (acceptCall_success _ _ _ _ _ _ Hid Hcall).
      by eapply machine_accept.
    + unfold acceptCall. rewrite Hid, Hcall. by apply machine_idle.
    + unfold acceptCall. rewrite Hid. by apply machine_idle.
  - destruct (resolved (data_userId client)) as [userId|] eqn:Hid;
      [destruct (calls st !! c) as [call|] eqn:Hcall|].
    + rewrite (rejectCall_success _ _ _ _ _ _ Hid Hcall).
      eapply machine_close; [exact Hcall | left; eauto | done..].
    + unfold rejectCall. rewrite Hid, Hcall. by apply machine_idle.
    + unfold rejectCall. rewrite Hid. by apply machine_idle.
  - destruct (calls st !! c) as [call|] eqn:Hcall.
    + rewrite (endCall_success _ _ _ _ _ Hcall).
      eapply machine_close; [exact Hcall | right; left; eauto | done..].
    + unfold endCall. rewrite Hcall. by apply machine_idle.
  - rewrite ringTimeout_fires. case_decide as Ht; simpl; [|by apply machine_idle].
    destruct (calls st !! c) as [call|] eqn:Hcall.
    + eapply machine_close; [exact Hcall | right; right; eauto | done..].
    + by eapply machine_stale_timer.
  - apply forward_machine.
  - apply forward_machine.
  - apply forward_machine.
Qed.

Lemma accepted_same_call now userId call : same_call call (accepted now userId call).
Proof. unfold accepted. by case_decide. Qed.

Lemma rejected_same_call now userId call : same_call call (rejected now userId call).
Proof. done. Qed.

Lemma call_finished_same_call s now call : same_call call (call_finished s now call).
Proof. done. Qed.

Lemma accepted_userIds now userId call :
  (cp_userId <$> call_participants call)
  `prefix_of` (cp_userId <$> call_participants (accepted now userId call)).
Proof.
  rewrite accepted_participants.
  destruct (list_find _ (call_participants call)) as [[i p]|].
  - assert (Hsame : cp_userId <$> alter (participant_joined now) i (call_participants call)
                    = cp_userId <$> call_participants call).
    { apply list_eq. intros j. rewrite !list_lookup_fmap.
      destruct (decide (i = j)) as [<-|Hne].
      - rewrite list_lookup_alter_eq.
        by destruct (call_participants call !! i).
      - by rewrite list_lookup_alter_ne. }
    by rewrite Hsame.
  - rewrite fmap_app. by apply prefix_app_r.
Qed.

Lemma rejected_userIds now userId call :
  cp_userId <$> call_participants (rejected now userId call)
  = cp_userId <$> call_participants call.
Proof.
  simpl. rewrite <- list_fmap_compose. apply list_fmap_ext.
  intros i p _. simpl. by case_decide.
Qed.

(** X10: a handler that refuses a request, answering with one of the
    messages of [refusals], has changed nothing and has emitted exactly one
    event: the error event, with the message of the response, to the
    connection it was called on.  The answer the boundary gives when the
    store throws is not one of [refusals] and is not covered. *)
Theorem handler_refusal_changes_nothing op st out m :
  handle op st = Some out →
  response out = errorResponse m →
  m ∈ refusals →
  state_of out = st
  ∧ ∃ client, op_client op = Some client
      ∧ emitted out = [mkEmit (sock_id client) ERROR (PError m)].
Proof.
  intros Hhandle Hresp Hm.
  assert (Herr : ∀ client msg,
    response (emitError client msg st) = errorResponse m →
    state_of (emitError client msg st) = st
    ∧ emitted (emitError client msg st) = [mkEmit (sock_id client) ERROR (PError m)]).
  { by intros client msg [= ->]. }
  assert (Hthrown : ∀ client msg,
    msg ∉ refusals →
    response (handleError client msg st) = errorResponse m → False).
  { intros client msg Hmsg [= ->]. done. }
  assert (Hfwd : ∀ event payload message client callId to,
    response (forward event payload message client callId to st) = errorResponse m →
    state_of (forward event payload message client callId to st) = st
    ∧ emitted (forward event payload message client callId to st)
      = [mkEmit (sock_id client) ERROR (PError m)]).
  { intros event payload message client callId to. unfold forward.
    repeat case_match; try apply Herr. done. }
  destruct op as [client|client|newId client conversationId type
                  |now client callId|now client callId|now client callId
                  |now callId|client payload|client payload|client payload];
    simpl in Hhandle; try done; injection Hhandle as <-; cbn [op_client].
  - enough (state_of (initiateCall newId client conversationId type st) = st
            ∧ emitted (initiateCall newId client conversationId type st)
              = [mkEmit (sock_id client) ERROR (PError m)]) as [? ?] by eauto.
    revert Hresp. unfold initiateCall.
    repeat case_match; try apply Herr; try done;
      intros Hresp; exfalso; revert Hresp; apply Hthrown;
      unfold refusals; set_solver.
  - enough (state_of (acceptCall now client callId st) = st
            ∧ emitted (acceptCall now client callId st)
              = [mkEmit (sock_id client) ERROR (PError m)]) as [? ?] by eauto.
    revert Hresp. unfold acceptCall. repeat case_match; try apply Herr; done.
  - enough (state_of (rejectCall now client callId st) = st
            ∧ emitted (rejectCall now client callId st)
              = [mkEmit (sock_id client) ERROR (PError m)]) as [? ?] by eauto.
    revert Hresp. unfold rejectCall. repeat case_match; try apply Herr; done.
  - exfalso. revert Hresp. unfold endCall. case_match; [done|].
    apply Hthrown. unfold refusals. set_solver.
  - destruct (Hfwd _ _ _ _ _ _ Hresp); eauto.
  - destruct (Hfwd _ _ _ _ _ _ Hresp); eauto.
  - destruct (Hfwd _ _ _ _ _ _ Hresp); eauto.
Qed.

Lemma handler_refusal_changes_nothing_witness :
  state_of (acceptCall 5%Z anon_sock "c1" ringing) = ringing
  ∧ ∃ client, Some anon_sock = Some client
      ∧ emitted (acceptCall 5%Z anon_sock "c1" ringing)
        = [mkEmit (sock_id client) ERROR (PError "Unauthorized")].
Proof.
  apply (handler_refusal_changes_nothing (Accept 5%Z anon_sock "c1") ringing
           (acceptCall 5%Z anon_sock "c1" ringing) "Unauthorized").
  - reflexivity.
  - reflexivity.
  - unfold refusals. apply list_elem_of_here.
Defined.

(** *** Initiate *)

(** X11: a call is created only for a caller with a resolved identity who
    is an ADMIN_GROUP participant of the conversation, and only if the
    conversation has a USER participant with a non-empty identity. *)
Theorem initiateCall_requires_admin_and_callee newId client conversationId type st m :
  response (initiateCall newId client conversationId type st) = successResponse m →
  ∃ callerId targetId participants,
    data_userId client = Some callerId
    ∧ callerId ≠ EmptyString
    ∧ conversations st !! conversationId = Some participants
    ∧ mkConversationParticipant (Some callerId) ADMIN_GROUP ∈ participants
    ∧ mkConversationParticipant (Some targetId) USER ∈ participants
    ∧ targetId ≠ EmptyString.
Proof.
  intros Hok.
  destruct (initiateCall_success _ _ _ _ _ _ Hok)
    as (callerId & targetId & ps & Hid & Hconv & Hadmin & Htarget & Hne & _).
  apply resolved_Some in Hid as [Hid Hcaller].
  exists callerId, targetId, ps. done.
Qed.

Lemma initiateCall_requires_admin_and_callee_witness :
  ∃ callerId targetId participants,
    data_userId alice_sock = Some callerId
    ∧ callerId ≠ EmptyString
    ∧ conversations bob_offline !! "conv1" = Some participants
    ∧ mkConversationParticipant (Some callerId) ADMIN_GROUP ∈ participants
    ∧ mkConversationParticipant (Some targetId) USER ∈ participants
    ∧ targetId ≠ EmptyString.
Proof.
  apply (initiateCall_requires_admin_and_callee "c2" alice_sock "conv1" AUDIO
           bob_offline "Call initiated").
  vm_compute. reflexivity.
Defined.

(** X12: a successful [initiateCall] by a client authenticated as the
    caller, in a conversation whose callee is its first USER participant
    with a user, stores under the new identifier a call of that
    conversation that is INITIATED, has the caller as initiator and exactly
    two participant rows (the caller JOINED, then the callee MISSED),
    records the connection of the client as the route of the caller and as
    the only route of the call, arms a ring timer of 30000 ms for it, and
    leaves every other call, route and timer, the conversations and the
    registry as they were. *)
Theorem initiateCall_creates_ringing_call newId client conversationId type st m :
  response (initiateCall newId client conversationId type st) = successResponse m →
  let st' := state_of (initiateCall newId client conversationId type st) in
  ∃ callerId targetId participants,
    data_userId client = Some callerId
    ∧ conversations st !! conversationId = Some participants
    ∧ callee_of participants targetId
    ∧ calls st !! newId = None
    ∧ calls st' !! newId
      = Some (mkCall newId conversationId callerId type CallStatus.INITIATED
                None None
                [ mkCallParticipant (Some callerId) CallParticipantStatus.JOINED
                    None None;
                  mkCallParticipant (Some targetId) CallParticipantStatus.MISSED
                    None None ])
    ∧ callSocketMap st' !! newId = Some {[ callerId := sock_id client ]}
    ∧ ringTimeouts st' !! newId = Some 30000%Z
    ∧ clients st' = clients st
    ∧ conversations st' = conversations st
    ∧ ∀ k, k ≠ newId →
           calls st' !! k = calls st !! k
           ∧ callSocketMap st' !! k = callSocketMap st !! k
           ∧ ringTimeouts st' !! k = ringTimeouts st !! k.
Proof.
  intros Hok st'.
  destruct (initiateCall_effect _ _ _ _ _ _ Hok)
    as (callerId & targetId & ps & Hid & Hconv & _ & _ & _ & Hnew & Hst & _ & Hcallee).
  apply resolved_Some in Hid as [Hid _].
  exists callerId, targetId, ps. unfold st'. rewrite Hst. simpl.
  rewrite !lookup_insert_eq. split_and!; try done.
  intros k Hk. by rewrite !lookup_insert_ne.
Qed.

Lemma initiateCall_creates_ringing_call_witness :
  calls bob_offline !! "c2" = None
  ∧ calls (state_of (initiateCall "c2" alice_sock "conv1" AUDIO bob_offline)) !! "c2"
    = Some (mkCall "c2" "conv1" "alice" AUDIO CallStatus.INITIATED None None
              [ mkCallParticipant (Some "alice") CallParticipantStatus.JOINED
                  None None;
                mkCallParticipant (Some "bob") CallParticipantStatus.MISSED
                  None None ])
  ∧ callSocketMap (state_of (initiateCall "c2" alice_sock "conv1" AUDIO bob_offline))
      !! "c2"
    = Some {[ "alice" := "s-alice" ]}.
Proof.
  destruct (initiateCall_creates_ringing_call "c2" alice_sock "conv1" AUDIO
              bob_offline "Call initiated" ltac:(vm_compute; reflexivity))
    as (callerId & targetId & ps & Hid & Hconv & Hcallee & Hnew & Hcall & Hroute & _).
  injection Hid as <-.
  assert (Hps : conversations bob_offline !! "conv1"
                = Some [ mkConversationParticipant (Some "alice") ADMIN_GROUP;
                         mkConversationParticipant (Some "bob") USER ])
    by (vm_compute; reflexivity).
  rewrite Hps in Hconv. injection Hconv as <-.
  destruct Hcallee as (before & after & Hsplit & _ & _).
  assert (Htarget : targetId = "bob").
  { destruct before as [|p1 [|p2 [|p3 before]]]; simpl in Hsplit;
      [discriminate Hsplit | | |].
    - by injection Hsplit as _ ->.
    - by injection Hsplit.
    - by injection Hsplit. }
  subst targetId.
  split; [exact Hnew|]. split; [exact Hcall | exact Hroute].
Defined.

End MachineMore.

(** ** Invariants of the machine *)

Section MachineInvariants.

Implicit Types (st : State) (callId userId k : string) (client : Socket)
               (call c : Call) (now : Time).

(** What one operation can do to a stored call. *)
Lemma step_call_update op st k c :
  calls st !! k = Some c →
  ∃ c', calls (step op st) !! k = Some c'
        ∧ (c' = c
           ∨ (∃ now userId, c' = accepted now userId c)
           ∨ (∃ now userId, c' = rejected now userId c)
           ∨ (∃ s now, c' = call_finished s now c)).
Proof.
  intros Hc.
  destruct (step_machine op st)
    as [Hcalls _ _|callId call from sid _ Hcalls _ _
       |newId client conv callerId targetId type _ Hcne Htne Hnew Hcalls _ _
       |now client callId call userId _ Hcall Hcalls _ _
       |callId call call' Hcall Hkind Hcalls _ _
       |callId _ Hcalls _ _];
    rewrite Hcalls.
  - eauto.
  - eauto.
  - rewrite lookup_insert_ne by congruence. eauto.
  - destruct (decide (callId = k)) as [->|Hne].
    + rewrite lookup_insert_eq. assert (call = c) as -> by congruence. eauto 8.
    + rewrite lookup_insert_ne by done. eauto.
  - destruct (decide (callId = k)) as [->|Hne].
    + rewrite lookup_insert_eq. assert (call = c) as -> by congruence.
      eexists. split; [done|].
      destruct Hkind as [(now & u & ->)|[(now & ->)|(now & -> & _)]]; eauto 8.
    + rewrite lookup_insert_ne by done. eauto.
  - eauto.
Qed.

Lemma call_update_same_call c c' :
  c' = c
  ∨ (∃ now userId, c' = accepted now userId c)
  ∨ (∃ now userId, c' = rejected now userId c)
  ∨ (∃ s now, c' = call_finished s now c) →
  same_call c c'
  ∧ (cp_userId <$> call_participants c) `prefix_of` (cp_userId <$> call_participants c').
Proof.
  intros [->|[(now & u & ->)|[(now & u & ->)|(s & now & ->)]]].
  - done.
  - split; [apply accepted_same_call | apply accepted_userIds].
  - split; [apply rejected_same_call|]. by rewrite rejected_userIds.
  - done.
Qed.

Lemma machine_sound_step op st : machine_sound st → machine_sound (step op st).
Proof.
  intros (Hid & Htimer & Hroute).
  assert (Hid' : ∀ k c, calls (step op st) !! k = Some c → call_id c = k).
  { intros k c' Hc'.
    destruct (calls st !! k) as [c|] eqn:Hc.
    - destruct (step_call_update op st k c Hc) as (c'' & Hc'' & Hkind).
      assert (c'' = c') as -> by congruence.
      destruct (call_update_same_call _ _ Hkind) as [(-> & _) _]. by apply Hid.
    - destruct (step_machine op st)
        as [Hcalls _ _|callId call from sid _ Hcalls _ _
           |newId client conv callerId targetId type _ Hcne Htne Hnew Hcalls _ _
           |now client callId call userId _ Hcall Hcalls _ _
           |callId call call' Hcall Hkind Hcalls _ _
           |callId _ Hcalls _ _];
        rewrite Hcalls in Hc'; try congruence.
      + apply lookup_insert_Some in Hc' as [[<- <-]|[_ ?]]; [done | congruence].
      + apply lookup_insert_Some in Hc' as [[<- _]|[_ ?]]; congruence.
      + apply lookup_insert_Some in Hc' as [[<- _]|[_ ?]]; congruence. }
  split; [exact Hid'|].
  destruct (step_machine op st)
    as [Hcalls Hrt Hcsm|callId call from sid Hcall Hcalls Hrt Hcsm
       |newId client conv callerId targetId type _ Hcne Htne Hnew Hcalls Hrt Hcsm
       |now client callId call userId _ Hcall Hcalls Hrt Hcsm
       |callId call call' Hcall Hkind Hcalls Hrt Hcsm
       |callId Hnone Hcalls Hrt Hcsm];
    rewrite Hcalls, Hrt, Hcsm.
  - done.
  - split; [done|]. intros k [m Hm].
    apply lookup_insert_Some in Hm as [[<- _]|[_ Hm]]; [|by apply Hroute; eauto].
    rewrite (Hid _ _ Hcall). eauto.
  - split.
    + intros k [ms Hms].
      apply lookup_insert_Some in Hms as [[<- _]|[Hne Hms]].
      * rewrite lookup_insert_eq. eauto.
      * rewrite lookup_insert_ne by done. apply Htimer. eauto.
    + intros k [m Hm].
      apply lookup_insert_Some in Hm as [[<- _]|[Hne Hm]].
      * rewrite lookup_insert_eq. eauto.
      * rewrite lookup_insert_ne by done. apply Hroute. eauto.
  - split.
    + intros k [ms Hms].
      apply lookup_delete_Some in Hms as [Hne Hms].
      rewrite lookup_insert_ne by done. apply Htimer. eauto.
    + intros k [m Hm].
      apply lookup_insert_Some in Hm as [[<- _]|[Hne Hm]].
      * rewrite lookup_insert_eq. eauto.
      * rewrite lookup_insert_ne by done. apply Hroute. eauto.
  - split.
    + intros k [ms Hms].
      apply lookup_delete_Some in Hms as [Hne Hms].
      rewrite lookup_insert_ne by done. apply Htimer. eauto.
    + intros k [m Hm].
      apply lookup_delete_Some in Hm as [Hne Hm].
      rewrite lookup_insert_ne by done. apply Hroute. eauto.
  - split; [|done].
    intros k [ms Hms]. apply lookup_delete_Some in Hms as [Hne Hms].
    apply Htimer. eauto.
Qed.

Lemma machine_sound_run ops st : machine_sound st → machine_sound (run ops st).
Proof.
  revert st. induction ops as [|op ops IH]; intros st Hs; [done|].
  simpl. apply IH. by apply machine_sound_step.
Qed.

Lemma machine_sound_reachable st : reachable st → machine_sound st.
Proof.
  intros (convs & ops & ->). apply machine_sound_run.
  split_and!; simpl.
  - intros k c. by rewrite lookup_empty.
  - intros k [? Hk]. by rewrite lookup_empty in Hk.
  - intros k [? Hk]. by rewrite lookup_empty in Hk.
Qed.

Lemma two_party_step op st :
  (∀ k c, calls st !! k = Some c → two_party c) →
  ∀ k c, calls (step op st) !! k = Some c → two_party c.
Proof.
  intros Hall k c' Hc'.
  destruct (calls st !! k) as [c|] eqn:Hc.
  - destruct (step_call_update op st k c Hc) as (c'' & Hc'' & Hkind).
    assert (c'' = c') as -> by congruence.
    destruct (call_update_same_call _ _ Hkind) as [(_ & _ & Hinit & _) [more Hmore]].
    destruct (Hall k c Hc) as (Hnamed & targetId & rest & Htne & Hrows).
    split; [congruence|].
    exists targetId, (rest ++ more). split; [done|]. by rewrite Hmore, Hrows, Hinit.
  - destruct (step_machine op st)
      as [Hcalls _ _|callId call from sid _ Hcalls _ _
         |newId client conv callerId targetId type _ Hcne Htne Hnew Hcalls _ _
         |now client callId call userId _ Hcall Hcalls _ _
         |callId call call' Hcall Hkind Hcalls _ _
         |callId _ Hcalls _ _];
      rewrite Hcalls in Hc'; try congruence.
    + apply lookup_insert_Some in Hc' as [[<- <-]|[_ ?]]; [|congruence].
      split; [done|]. by exists targetId, [].
    + apply lookup_insert_Some in Hc' as [[<- _]|[_ ?]]; congruence.
    + apply lookup_insert_Some in Hc' as [[<- _]|[_ ?]]; congruence.
Qed.

Lemma two_party_reachable st k c : reachable st → calls st !! k = Some c → two_party c.
Proof.
  intros (convs & ops & ->). revert k c.
  assert (Hgen : ∀ st, (∀ k c, calls st !! k = Some c → two_party c) →
                       ∀ k c, calls (run ops st) !! k = Some c → two_party c).
  { induction ops as [|op ops IH]; intros st Hall; [done|].
    simpl. apply IH. by apply two_party_step. }
  apply Hgen. intros k c. simpl. by rewrite lookup_empty.
Qed.

(** X14: in every reachable state a pending ring timer belongs to a stored
    call whose status is still INITIATED. *)
Theorem reachable_timer_belongs_to_ringing_call st k :
  reachable st →
  is_Some (ringTimeouts st !! k) →
  ∃ c, calls st !! k = Some c ∧ call_id c = k
       ∧ call_status c = CallStatus.INITIATED.
Proof.
  intros Hreach Hk.
  destruct (machine_sound_reachable st Hreach) as (Hid & Htimer & _).
  destruct (Htimer k Hk) as (c & Hc & Hs). exists c. split_and!; [done | | done].
  by apply Hid.
Qed.

Lemma reachable_timer_belongs_to_ringing_call_witness :
  ∃ c, calls ringing !! "c1" = Some c ∧ call_id c = "c1"
       ∧ call_status c = CallStatus.INITIATED.
Proof.
  apply (reachable_timer_belongs_to_ringing_call ringing "c1").
  - exists conv1. eexists. reflexivity.
  - vm_compute. eauto.
Defined.

(** X15: in every reachable state a call socket map entry belongs to a
    stored call, and every call is stored under its own identifier. *)
Theorem reachable_route_belongs_to_call st k :
  reachable st →
  (is_Some (callSocketMap st !! k) → is_Some (calls st !! k))
  ∧ ∀ c, calls st !! k = Some c → call_id c = k.
Proof.
  intros Hreach.
  destruct (machine_sound_reachable st Hreach) as (Hid & _ & Hroute).
  split; [apply Hroute | apply Hid].
Qed.

Lemma reachable_route_belongs_to_call_witness :
  (is_Some (callSocketMap ringing !! "c1") → is_Some (calls ringing !! "c1"))
  ∧ ∀ c, calls ringing !! "c1" = Some c → call_id c = "c1".
Proof.
  apply (reachable_route_belongs_to_call ringing "c1").
  exists conv1. eexists. reflexivity.
Defined.

(** X16: in every reachable state, when the ring timeout fires it finds its
    call still INITIATED, marks it MISSED with the end timestamp, drops its
    call socket map entry and its timer, and cannot fire a second time. *)
Theorem reachable_timeout_marks_ringing_call_missed st st' now callId :
  reachable st →
  ringTimeout now callId st = Some st' →
  ∃ call,
    calls st !! callId = Some call
    ∧ call_status call = CallStatus.INITIATED
    ∧ calls st' !! callId = Some (call_finished CallStatus.MISSED now call)
    ∧ callSocketMap st' !! callId = None
    ∧ ringTimeouts st' !! callId = None
    ∧ ∀ now', ringTimeout now' callId st' = None.
Proof.
  intros Hreach Hfire. rewrite ringTimeout_fires in Hfire.
  case_decide as Ht; [|done].
  destruct (machine_sound_reachable st Hreach) as (_ & Htimer & _).
  destruct (Htimer callId Ht) as (call & Hcall & Hstatus).
  rewrite Hcall in Hfire. injection Hfire as <-. exists call. simpl.
  rewrite lookup_insert_eq, !lookup_delete_eq. split_and!; try done.
  intros now'. rewrite ringTimeout_fires. simpl. rewrite lookup_delete_eq.
  rewrite decide_False; [done|]. by intros [? ?].
Qed.

Lemma reachable_timeout_marks_ringing_call_missed_witness :
  ∃ call,
    calls ringing !! "c1" = Some call
    ∧ call_status call = CallStatus.INITIATED
    ∧ calls timed_out !! "c1" = Some (call_finished CallStatus.MISSED 30%Z call)
    ∧ callSocketMap timed_out !! "c1" = None
    ∧ ringTimeouts timed_out !! "c1" = None
    ∧ ∀ now', ringTimeout now' "c1" timed_out = None.
Proof.
  apply (reachable_timeout_marks_ringing_call_missed ringing timed_out 30%Z "c1").
  - exists conv1. eexists. reflexivity.
  - vm_compute. reflexivity.
Defined.

(** X17: no operation deletes a call or changes its identifier, conversation,
    initiator or type, and no operation removes a participant row or
    changes the user of one: the users of the rows before the operation
    are a prefix of the users of the rows after it. *)
Theorem calls_and_participant_rows_persist op st k c :
  calls st !! k = Some c →
  ∃ c', calls (step op st) !! k = Some c'
        ∧ same_call c c'
        ∧ (cp_userId <$> call_participants c)
            `prefix_of` (cp_userId <$> call_participants c').
Proof.
  intros Hc. destruct (step_call_update op st k c Hc) as (c' & Hc' & Hkind).
  exists c'. split; [done|]. by apply call_update_same_call.
Qed.

Lemma calls_and_participant_rows_persist_witness :
  ∃ c', calls (step (Accept 5%Z anon_sock "c1") ringing) !! "c1" = Some c'
        ∧ same_call (created_call "c1" "conv1" "alice" "bob" VIDEO) c'
        ∧ (cp_userId <$> call_participants
                           (created_call "c1" "conv1" "alice" "bob" VIDEO))
            `prefix_of` (cp_userId <$> call_participants c').
Proof.
  apply (calls_and_participant_rows_persist (Accept 5%Z anon_sock "c1") ringing "c1").
  vm_compute. reflexivity.
Defined.

(** X18: only a successful Initiate adds a call to the call table, and the
    call it adds is stored under the identifier it was given. *)
Theorem only_initiate_creates_calls op st k :
  calls st !! k = None →
  is_Some (calls (step op st) !! k) →
  ∃ client conversationId type callerId targetId,
    op = Initiate k client conversationId type
    ∧ calls (step op st) !! k
      = Some (created_call k conversationId callerId targetId type).
Proof.
  intros Hnone [c' Hc'].
  destruct (step_machine op st)
    as [Hcalls _ _|callId call from sid _ Hcalls _ _
       |newId client conv callerId targetId type Hop Hcne Htne Hnew Hcalls _ _
       |now client callId call userId _ Hcall Hcalls _ _
       |callId call call' Hcall Hkind Hcalls _ _
       |callId _ Hcalls _ _];
    rewrite Hcalls in Hc' |- *; try congruence.
  - apply lookup_insert_Some in Hc' as [[<- <-]|[_ ?]]; [|congruence].
    rewrite lookup_insert_eq. eauto 10.
  - apply lookup_insert_Some in Hc' as [[<- _]|[_ ?]]; congruence.
  - apply lookup_insert_Some in Hc' as [[<- _]|[_ ?]]; congruence.
Qed.

Lemma only_initiate_creates_calls_witness :
  ∃ client conversationId type callerId targetId,
    Initiate "c2" alice_sock "conv1" AUDIO = Initiate "c2" client conversationId type
    ∧ calls (step (Initiate "c2" alice_sock "conv1" AUDIO) bob_offline) !! "c2"
      = Some (created_call "c2" conversationId callerId targetId type).
Proof.
  apply (only_initiate_creates_calls (Initiate "c2" alice_sock "conv1" AUDIO)
           bob_offline "c2").
  - vm_compute. reflexivity.
  - vm_compute. eauto.
Defined.



End MachineInvariants.

(** ** Accept, Reject and the relay, row by row *)

Section HandlersMore.

Implicit Types (st : State) (callId userId : string) (client : Socket)
               (call : Call) (now : Time).



(** X21: any user with a resolved identity, participant of the call or not,
    ends an existing call with Reject: the call becomes MISSED with the end
    timestamp, its timer and its call socket map entry are gone, its start
    timestamp and the rows of other users stay as they were, and no row is
    added or removed. *)
Theorem rejectCall_by_any_user now client callId st userId call :
  data_userId client = Some userId →
  userId ≠ EmptyString →
  calls st !! callId = Some call →
  let st' := state_of (rejectCall now client callId st) in
  ∃ call',
    calls st' !! callId = Some call'
    ∧ call_status call' = CallStatus.MISSED
    ∧ call_endedAt call' = Some now
    ∧ call_startedAt call' = call_startedAt call
    ∧ length (call_participants call') = length (call_participants call)
    ∧ (∀ j p, call_participants call !! j = Some p → cp_userId p ≠ Some userId →
              call_participants call' !! j = Some p)
    ∧ ringTimeouts st' !! callId = None
    ∧ callSocketMap st' !! callId = None.
Proof.
  intros Hid Hne Hcall st'.
  assert (Hres : resolved (data_userId client) = Some userId).
  { rewrite Hid. by apply resolved_nonempty. }
  unfold st'. rewrite (rejectCall_success _ _ _ _ _ _ Hres Hcall).
  unfold state_of; cbn [fst snd calls ringTimeouts callSocketMap].
  rewrite lookup_insert_eq, !lookup_delete_eq.
  eexists. split; [done|]. simpl. split_and!; try done.
  - apply length_fmap.
  - intros j p Hj Hp. rewrite list_lookup_fmap, Hj. simpl.
    by rewrite decide_False.
Qed.

Lemma rejectCall_by_any_user_witness :
  ∃ call',
    calls (state_of (rejectCall 7%Z (mkSocket "s-carol" (Some "carol")) "c1" ringing))
      !! "c1" = Some call'
    ∧ call_status call' = CallStatus.MISSED.
Proof.
  assert (Hcall : calls ringing !! "c1"
                  = Some (created_call "c1" "conv1" "alice" "bob" VIDEO))
    by (vm_compute; reflexivity).
  assert (Hne : "carol" ≠ EmptyString) by discriminate.
  destruct (rejectCall_by_any_user 7%Z (mkSocket "s-carol" (Some "carol")) "c1"
              ringing "carol" (created_call "c1" "conv1" "alice" "bob" VIDEO)
              eq_refl Hne Hcall)
    as (call' & Hcall' & Hstatus & _).
  exists call'. split; [exact Hcall' | exact Hstatus].
Defined.

Lemma forward_success event payload message client callId to st m :
  response (forward event payload message client callId to st) = successResponse m →
  ∃ from call other otherId target,
    resolved (data_userId client) = Some from
    ∧ calls st !! callId = Some call
    ∧ other ∈ call_participants call
    ∧ cp_userId other = Some otherId
    ∧ otherId ≠ from
    ∧ findTargetSocketForRecipient (call_id call) otherId to
        (Some (sock_id client)) st = Some target
    ∧ target ≠ EmptyString
    ∧ forward event payload message client callId to st
      = (successResponse message,
         recordRoute (call_id call) from (sock_id client) st,
         [mkEmit target event (payload (call_id call) from)]).
Proof.
  unfold forward.
  destruct (resolved (data_userId client)) as [from|] eqn:Hid; [|done].
  destruct (calls st !! callId) as [call|] eqn:Hcall; [|done].
  destruct (other_participant from (call_participants call)) as [other|] eqn:Hother;
    simpl; [|done].
  destruct (resolved (cp_userId other)) as [otherId|] eqn:Hoid; [|done].
  destruct (resolved (findTargetSocketForRecipient _ _ _ _ _)) as [target|] eqn:Ht;
    [|done].
  intros _. exists from, call, other, otherId, target.
  apply resolved_Some in Hoid as [Hoid _].
  apply resolved_Some in Ht as [Ht Htne].
  unfold other_participant in Hother.
  apply List.find_some in Hother as [Hin Hp%bool_decide_eq_true].
  split_and!; try done.
  - by apply list_elem_of_In.
  - intros ->. congruence.
Qed.

(** X22: a relay forward that succeeds emits exactly one event, tagged for
    the kind of the request, to a connection that is not the connection of
    the sender, for a participant of the call other than the sender; it
    records the connection of the sender as the sender's route for the
    call, and changes nothing else. *)
Theorem relay_success_delivers_and_records op st client callId to out m :
  relay op st = Some (client, callId, to, out) →
  response out = successResponse m →
  ∃ from call other otherId e,
    resolved (data_userId client) = Some from
    ∧ calls st !! callId = Some call
    ∧ other ∈ call_participants call
    ∧ cp_userId other = Some otherId
    ∧ otherId ≠ from
    ∧ emitted out = [e]
    ∧ Some (emit_event e) = relay_event op
    ∧ findTargetSocketForRecipient (call_id call) otherId to
        (Some (sock_id client)) st = Some (emit_to e)
    ∧ emit_to e ≠ sock_id client
    ∧ state_of out = recordRoute (call_id call) from (sock_id client) st
    ∧ recordedRoute (call_id call) from (state_of out) = Some (sock_id client).
Proof.
  intros Hrelay Hok.
  assert (Hgen : ∀ event payload message,
    out = forward event payload message client callId to st →
    ∃ from call other otherId e,
      resolved (data_userId client) = Some from
      ∧ calls st !! callId = Some call
      ∧ other ∈ call_participants call
      ∧ cp_userId other = Some otherId
      ∧ otherId ≠ from
      ∧ emitted out = [e]
      ∧ emit_event e = event
      ∧ findTargetSocketForRecipient (call_id call) otherId to
          (Some (sock_id client)) st = Some (emit_to e)
      ∧ emit_to e ≠ sock_id client
      ∧ state_of out = recordRoute (call_id call) from (sock_id client) st
      ∧ recordedRoute (call_id call) from (state_of out) = Some (sock_id client)).
  { intros event payload message ->.
    destruct (forward_success _ _ _ _ _ _ _ _ Hok)
      as (from & call & other & otherId & target & Hid & Hcall & Hin & Hoid
          & Hne & Ht & _ & ->).
    exists from, call, other, otherId, (mkEmit target event (payload (call_id call) from)).
    split_and!; try done.
    - simpl. apply findTarget_Some_cases in Ht as [(_ & _ & Hex)|Hactive].
      + congruence.
      + apply elem_of_active in Hactive as (_ & _ & _ & _ & _ & Hex). congruence.
    - apply recordedRoute_recordRoute. }
  destruct op as [c|c|newId c conv type|now c id|now c id|now c id|now id
                 |c payload|c payload|c payload];
    simpl in Hrelay; try done; injection Hrelay as <- <- <- Hout; symmetry in Hout;
    unfold forwardOffer, forwardAnswer, forwardCandidate in Hout.
  - destruct (Hgen _ _ _ Hout) as (from & call & other & otherId & e & Hall).
    exists from, call, other, otherId, e. simpl. split_and!; try apply Hall.
    f_equal. apply Hall.
  - destruct (Hgen _ _ _ Hout) as (from & call & other & otherId & e & Hall).
    exists from, call, other, otherId, e. simpl. split_and!; try apply Hall.
    f_equal. apply Hall.
  - destruct (Hgen _ _ _ Hout) as (from & call & other & otherId & e & Hall).
    exists from, call, other, otherId, e. simpl. split_and!; try apply Hall.
    f_equal. apply Hall.
Qed.

Lemma relay_success_delivers_and_records_witness :
  ∃ e,
    emitted (forwardOffer alice_sock (mkRTCOfferDto "c1" "sdp" None) ringing) = [e]
    ∧ emit_to e ≠ sock_id alice_sock.
Proof.
  assert (Hok : response (forwardOffer alice_sock (mkRTCOfferDto "c1" "sdp" None)
                                      ringing)
                = successResponse "Offer forwarded") by (vm_compute; reflexivity).
  destruct (relay_success_delivers_and_records
              (Offer alice_sock (mkRTCOfferDto "c1" "sdp" None)) ringing
              alice_sock "c1" None _ "Offer forwarded" eq_refl Hok)
    as (from & call & other & otherId & e & _ & _ & _ & _ & _ & He & _ & _ & Hne & _).
  exists e. split; [exact He | exact Hne].
Defined.

End HandlersMore.

(** ** The credential of a connection *)

Section Token.

Implicit Types (s rest : string) (handshake : Handshake).

Lemma split_head s : head (split space s) = Some (before_space s).
Proof.
  induction s as [|c s IH]; [done|]. simpl.
  destruct (Ascii.eqb c space); [done|].
  destruct (split space s) as [|word words]; [done|].
  simpl in *. by injection IH as ->.
Qed.

Lemma before_space_spaceless s : spaceless s = true → before_space s = s.
Proof.
  induction s as [|c s IH]; [done|]. simpl.
  destruct (Ascii.eqb c space); simpl; [done|]. intros Hs. by rewrite IH.
Qed.

Lemma split_word c s :
  Ascii.eqb c space = false →
  split space (String c s)
  = String c (default EmptyString (head (split space s))) :: tail (split space s).
Proof. simpl. intros ->. by destruct (split space s). Qed.

Lemma split_space_char s : split space (String space s) = EmptyString :: split space s.
Proof. done. Qed.

Lemma split_bearer rest :
  split space (String.append "Bearer " rest) !! 1%nat = Some (before_space rest).
Proof.
  cbv [String.append].
  rewrite !split_word by done. rewrite split_space_char. cbn [head tail default].
  change (split space rest !! 0%nat = Some (before_space rest)).
  rewrite <- head_lookup. apply split_head.
Qed.

Lemma prefix_String a s1 s :
  String.prefix (String a s1) s = true →
  ∃ s2, s = String a s2 ∧ String.prefix s1 s2 = true.
Proof.
  destruct s as [|b s2]; [done|].
  change (String.prefix (String a s1) (String b s2))
    with (if Ascii.ascii_dec a b then String.prefix s1 s2 else false).
  destruct (Ascii.ascii_dec a b) as [<-|]; [eauto | done].
Qed.

Lemma prefix_bearer s :
  String.prefix "Bearer " s = true → ∃ rest, s = String.append "Bearer " rest.
Proof.
  intros Hprefix.
  repeat (apply prefix_String in Hprefix as (? & -> & Hprefix)).
  eexists. reflexivity.
Qed.

Lemma prefix_bearer_append rest :
  String.prefix "Bearer " (String.append "Bearer " rest) = true.
Proof.
  cbv [String.append].
  repeat (change (String.prefix (String ?a ?s1) (String ?b ?s2))
            with (if Ascii.ascii_dec a b then String.prefix s1 s2 else false);
          destruct (Ascii.ascii_dec _ _); [|done]).
  by destruct rest.
Qed.

(** X23: from an authorization header [Bearer <rest>] the token taken is
    the part of the rest before its first space, whatever [auth.token]
    holds: the rest itself when it has no space, the empty string when the
    rest is empty or starts with a space. *)
Theorem extractToken_bearer rest token :
  extractTokenFromSocket (mkHandshake (Some (String.append "Bearer " rest)) token)
  = Some (before_space rest)
  ∧ (spaceless rest = true → before_space rest = rest).
Proof.
  split; [|apply before_space_spaceless].
  unfold extractTokenFromSocket, or_else.
  assert (Hne : String.append "Bearer " rest ≠ EmptyString) by done.
  cbn [headers_authorization auth_token].
  rewrite !(resolved_nonempty _ Hne).
  rewrite prefix_bearer_append. apply split_bearer.
Qed.

(** X24: no credential is extracted exactly when both the authorization
    header and [auth.token] are missing or empty; a header that does not
    start with [Bearer ] comes back unchanged. *)
Theorem extractToken_none_iff handshake :
  (extractTokenFromSocket handshake = None
   ↔ resolved (headers_authorization handshake) = None
     ∧ resolved (auth_token handshake) = None)
  ∧ ∀ header, resolved (headers_authorization handshake) = Some header →
              String.prefix "Bearer " header = false →
              extractTokenFromSocket handshake = Some header.
Proof.
  unfold extractTokenFromSocket, or_else. split.
  - destruct (resolved (headers_authorization handshake)) as [header|] eqn:Hh.
    + apply resolved_Some in Hh as [_ Hne].
      rewrite (resolved_nonempty _ Hne). split; [|by intros [? _]].
      destruct (String.prefix "Bearer " header) eqn:Hprefix; [|done].
      apply prefix_bearer in Hprefix as [rest ->]. by rewrite split_bearer.
    + destruct (resolved (auth_token handshake)) as [token|] eqn:Ht.
      * split; [|by intros [_ ?]].
        destruct (String.prefix "Bearer " token) eqn:Hprefix; [|done].
        apply prefix_bearer in Hprefix as [rest ->]. by rewrite split_bearer.
      * done.
  - intros header Hh Hprefix. rewrite Hh.
    apply resolved_Some in Hh as [_ Hne].
    by rewrite (resolved_nonempty _ Hne), Hprefix.
Qed.

End Token.

(** ** Disconnection *)

Section Disconnect.

Implicit Types (st : State) (client : Socket) (u : string).


End Disconnect.

Lemma ids_nonempty_run_witness : ids_nonempty ringing.
Proof.
  apply (ids_nonempty_run conv1 ∅
           [ Connect alice_sock; Connect bob_sock;
             Initiate "c1" alice_sock "conv1" VIDEO ]).
  repeat (apply list.Forall_cons; split; [unfold op_named; simpl; discriminate|]).
  apply list.Forall_nil_2.
Defined.

(** ** Who is notified *)

Section Notifications.

Implicit Types (st : State) (callId userId recipient : string) (client : Socket)
               (call : Call) (now : Time).

(** The router reads the registry and the route recorded for the
    recipient in the call, and nothing else. *)
Lemma findTarget_ext callId recipient hint exclude st st' :
  clients st = clients st' →
  recordedRoute callId recipient st = recordedRoute callId recipient st' →
  findTargetSocketForRecipient callId recipient hint exclude st
  = findTargetSocketForRecipient callId recipient hint exclude st'.
Proof.
  intros Hclients Hroute.
  assert (Hactive : getActiveSocketIdsForUser recipient exclude st
                    = getActiveSocketIdsForUser recipient exclude st').
  { unfold getActiveSocketIdsForUser. by rewrite Hclients. }
  assert (Hrec : ∀ s,
    match callSocketMap s !! callId with
    | Some map =>
        match resolved (map !! recipient) with
        | Some rec => if decide (Some rec ≠ exclude) then Some rec else None
        | None => None
        end
    | None => None
    end
    = match resolved (recordedRoute callId recipient s) with
      | Some rec => if decide (Some rec ≠ exclude) then Some rec else None
      | None => None
      end).
  { intros s. unfold recordedRoute. by destruct (callSocketMap s !! callId). }
  unfold findTargetSocketForRecipient. by rewrite !Hrec, Hactive, Hroute.
Qed.

Lemma findTarget_without_route callId recipient exclude st :
  recordedRoute callId recipient st = None →
  findTargetSocketForRecipient callId recipient None exclude st
  = head (getActiveSocketIdsForUser recipient exclude st).
Proof.
  unfold findTargetSocketForRecipient, recordedRoute. simpl.
  destruct (callSocketMap st !! callId) as [map|]; simpl; [|done].
  by intros ->.
Qed.

(** In a two-party call the first row of another user, seen from anybody
    but the initiator, is the row of the initiator. *)
Lemma other_participant_initiator userId call :
  two_party call →
  userId ≠ call_initiatorId call →
  ∃ other, other_participant userId (call_participants call) = Some other
           ∧ resolved (cp_userId other) = Some (call_initiatorId call).
Proof.
  intros (Hnamed & targetId & rest & _ & Hrows) Hne.
  destruct (call_participants call) as [|p0 ps]; [done|].
  injection Hrows as Hp0 _.
  exists p0. unfold other_participant. simpl.
  rewrite bool_decide_eq_true_2 by (rewrite Hp0; congruence).
  split; [done|]. rewrite Hp0. by apply resolved_nonempty.
Qed.

(** X26: in every reachable state, an accept by anybody but the initiator
    notifies the initiator and nobody else: the acceptance goes to the
    connection the router resolves for the initiator in the state before
    the accept, and nothing is emitted when the router resolves none. *)
Theorem acceptCall_notifies_initiator now client callId st call userId :
  reachable st →
  calls st !! callId = Some call →
  resolved (data_userId client) = Some userId →
  userId ≠ call_initiatorId call →
  emitted (acceptCall now client callId st)
  = match resolved (findTargetSocketForRecipient callId (call_initiatorId call)
                      None None st) with
    | Some target => [mkEmit target CALL_ACCEPT (PAccepted callId userId)]
    | None => []
    end.
Proof.
  intros Hreach Hcall Hid Hne.
  destruct (machine_sound_reachable st Hreach) as (Hkey & _ & _).
  pose proof (two_party_reachable st callId call Hreach Hcall) as Htwo.
  destruct (other_participant_initiator userId call Htwo Hne) as (other & Hother & Hoid).
  unfold acceptCall. rewrite Hid, Hcall. unfold emitted; cbn [snd].
  unfold notify_other. rewrite Hother, Hoid, (Hkey _ _ Hcall).
  erewrite (findTarget_ext callId (call_initiatorId call) None None _ st); [done | |].
  - case_decide; autorewrite with state_proj; done.
  - unfold recordedRoute. case_decide; autorewrite with state_proj;
      rewrite lookup_insert_eq; simpl;
      (rewrite lookup_insert_ne by congruence);
      destruct (callSocketMap st !! callId); simpl; done.
Qed.

Lemma acceptCall_notifies_initiator_witness :
  emitted (acceptCall 5%Z bob_sock "c1" ringing)
  = match resolved (findTargetSocketForRecipient "c1" "alice" None None ringing) with
    | Some target => [mkEmit target CALL_ACCEPT (PAccepted "c1" "bob")]
    | None => []
    end.
Proof.
  assert (Hreach : reachable ringing) by (exists conv1; eexists; reflexivity).
  assert (Hcall : calls ringing !! "c1"
                  = Some (created_call "c1" "conv1" "alice" "bob" VIDEO))
    by (vm_compute; reflexivity).
  assert (Hne : "bob" ≠ "alice") by discriminate.
  exact (acceptCall_notifies_initiator 5%Z bob_sock "c1" ringing
           (created_call "c1" "conv1" "alice" "bob" VIDEO) "bob"
           Hreach Hcall eq_refl Hne).
Defined.

(** X27: in every reachable state, a reject by anybody but the initiator
    notifies the initiator on the first of the initiator's active
    connections, never on a recorded route (the call socket map entry is
    deleted before the connection is resolved), and emits nothing when the
    initiator has no connection. *)
Theorem rejectCall_notifies_initiator now client callId st call userId :
  reachable st →
  calls st !! callId = Some call →
  resolved (data_userId client) = Some userId →
  userId ≠ call_initiatorId call →
  emitted (rejectCall now client callId st)
  = match resolved (head (getActiveSocketIdsForUser (call_initiatorId call) None st)) with
    | Some target => [mkEmit target CALL_MISSED (PMissed callId userId)]
    | None => []
    end.
Proof.
  intros Hreach Hcall Hid Hne.
  destruct (machine_sound_reachable st Hreach) as (Hkey & _ & _).
  pose proof (two_party_reachable st callId call Hreach Hcall) as Htwo.
  destruct (other_participant_initiator userId call Htwo Hne) as (other & Hother & Hoid).
  unfold rejectCall. rewrite Hid, Hcall. unfold emitted; cbn [snd].
  unfold notify_other. rewrite Hother, Hoid, (Hkey _ _ Hcall).
  rewrite findTarget_without_route.
  - unfold getActiveSocketIdsForUser. by autorewrite with state_proj.
  - unfold recordedRoute. autorewrite with state_proj.
    by rewrite lookup_delete_eq.
Qed.

Lemma rejectCall_notifies_initiator_witness :
  emitted (rejectCall 7%Z bob_sock "c1" ringing)
  = match resolved (head (getActiveSocketIdsForUser "alice" None ringing)) with
    | Some target => [mkEmit target CALL_MISSED (PMissed "c1" "bob")]
    | None => []
    end.
Proof.
  assert (Hreach : reachable ringing) by (exists conv1; eexists; reflexivity).
  assert (Hcall : calls ringing !! "c1"
                  = Some (created_call "c1" "conv1" "alice" "bob" VIDEO))
    by (vm_compute; reflexivity).
  assert (Hne : "bob" ≠ "alice") by discriminate.
  exact (rejectCall_notifies_initiator 7%Z bob_sock "c1" ringing
           (created_call "c1" "conv1" "alice" "bob" VIDEO) "bob"
           Hreach Hcall eq_refl Hne).
Defined.



(** X13: a successful [initiateCall] by a client authenticated as the
    caller emits at most one event: an incoming-call event that carries the
    call now stored under the new identifier and the caller, and that goes
    only to an active connection of the callee of the conversation (or,
    when the caller is the callee, to the connection of the client).  When
    the callee is not the caller the event goes to the first active
    connection of the callee, and a callee without a connection is not
    notified. *)
Theorem initiateCall_notifies_callee newId client conversationId type st m :
  response (initiateCall newId client conversationId type st) = successResponse m →
  ∃ callerId targetId participants call,
    data_userId client = Some callerId
    ∧ conversations st !! conversationId = Some participants
    ∧ callee_of participants targetId
    ∧ calls (state_of (initiateCall newId client conversationId type st)) !! newId
      = Some call
    ∧ (length (emitted (initiateCall newId client conversationId type st)) ≤ 1)%nat
    ∧ (∀ e, e ∈ emitted (initiateCall newId client conversationId type st) →
            emit_event e = CALL_INCOMING
            ∧ emit_payload e = PIncoming call callerId
            ∧ (emit_to e ∈ getActiveSocketIdsForUser targetId None st
               ∨ (targetId = callerId ∧ emit_to e = sock_id client)))
    ∧ (targetId ≠ callerId →
       emitted (initiateCall newId client conversationId type st)
       = match resolved (head (getActiveSocketIdsForUser targetId None st)) with
         | Some target => [mkEmit target CALL_INCOMING (PIncoming call callerId)]
         | None => []
         end)
    ∧ (targetId ≠ callerId → clients st !! targetId = None →
       emitted (initiateCall newId client conversationId type st) = []).
Proof.
  intros Hok.
  destruct (initiateCall_effect _ _ _ _ _ _ Hok)
    as (callerId & targetId & ps & Hid & Hconv & _ & _ & _ & _ & Hst & Hout
        & Hcallee).
  apply resolved_Some in Hid as [Hid _].
  exists callerId, targetId, ps,
         (created_call newId conversationId callerId targetId type).
  rewrite Hst, Hout. cbn [calls]. rewrite lookup_insert_eq.
  split_and!; [done | done | done | done | | | |].
  - by destruct (resolved _); simpl; lia.
  - set (st2 := set_callSocketMap (insert newId {[callerId := sock_id client]}) st).
    destruct (resolved (findTargetSocketForRecipient newId targetId None None st2))
      as [t|] eqn:Ht; [|by intros e ?%elem_of_nil].
    apply resolved_Some in Ht as [Ht _].
    intros e ->%list_elem_of_singleton. split_and!; [done | done |]. simpl.
    apply findTarget_Some_cases in Ht as [[Hrec _]|Hactive].
    + right. unfold recordedRoute, st2 in Hrec. simpl in Hrec.
      rewrite lookup_insert_eq in Hrec. simpl in Hrec.
      by apply lookup_singleton_Some in Hrec as [-> ->].
    + by left.
  - intros Hne.
    rewrite findTarget_without_route.
    + reflexivity.
    + unfold recordedRoute. simpl. rewrite lookup_insert_eq. simpl.
      by apply lookup_singleton_ne.
  - intros Hne Hoff.
    rewrite findTarget_without_route.
    + unfold getActiveSocketIdsForUser. simpl. by rewrite Hoff.
    + unfold recordedRoute. simpl. rewrite lookup_insert_eq. simpl.
      by apply lookup_singleton_ne.
Qed.

Lemma initiateCall_notifies_callee_witness :
  ∃ call,
    calls (state_of (initiateCall "c1" alice_sock "conv1" VIDEO
                       (run [Connect alice_sock; Connect bob_sock] (initial conv1 ∅))))
      !! "c1" = Some call
    ∧ call_initiatorId call = "alice"
    ∧ emitted (initiateCall "c1" alice_sock "conv1" VIDEO
                 (run [Connect alice_sock; Connect bob_sock] (initial conv1 ∅)))
      = [mkEmit "s-bob" CALL_INCOMING (PIncoming call "alice")].
Proof.
  set (st := run [Connect alice_sock; Connect bob_sock] (initial conv1 ∅)).
  destruct (initiateCall_notifies_callee "c1" alice_sock "conv1" VIDEO st
              "Call initiated" ltac:(vm_compute; reflexivity))
    as (callerId & targetId & ps & call & Hid & Hconv & Hcallee & Hcall & _ & _
        & Hout & _).
  injection Hid as <-.
  assert (Hps : conversations st !! "conv1"
                = Some [ mkConversationParticipant (Some "alice") ADMIN_GROUP;
                         mkConversationParticipant (Some "bob") USER ])
    by (vm_compute; reflexivity).
  rewrite Hps in Hconv. injection Hconv as <-.
  destruct Hcallee as (before & after & Hsplit & _ & _).
  assert (Htarget : targetId = "bob").
  { destruct before as [|p1 [|p2 [|p3 before]]]; simpl in Hsplit;
      [discriminate Hsplit | | |].
    - by injection Hsplit as _ ->.
    - by injection Hsplit.
    - by injection Hsplit. }
  subst targetId.
  assert (Hactive : resolved (head (getActiveSocketIdsForUser "bob" None st))
                    = Some "s-bob") by (vm_compute; reflexivity).
  specialize (Hout ltac:(discriminate)). rewrite Hactive in Hout.
  exists call. split; [exact Hcall|]. split; [|exact Hout].
  assert (Hstored : call_initiatorId <$>
                      calls (state_of (initiateCall "c1" alice_sock "conv1" VIDEO st))
                        !! "c1" = Some "alice") by (vm_compute; reflexivity).
  rewrite Hcall in Hstored. by injection Hstored.
Defined.

End Notifications.
